(** * byok-ai: the envelope cipher, the key store and the vault orchestrator

  A shallow embedding of [core/Encryption.ts], [stores/MemoryStore.ts],
  [providers/gemini.ts] and [core/index.ts], with the properties the
  specification states about them.

  JavaScript strings are sequences of UTF-16 code units, Node [Buffer]s
  are sequences of bytes; the conversions between the two ([utf-8],
  [base64]) are written out below the way Node performs them.  The
  cryptographic primitives of Node's [crypto] module (PBKDF2, AES-256-GCM)
  are an interface whose contract is stated separately. *)

From Stdlib Require Import NArith ZArith Lia ZifyNat List Strings.Ascii Strings.String Strings.Byte.
From stdpp Require Import base numbers list strings pretty gmap.

Local Open Scope N_scope.

(* Division and remainder by constants are linear arithmetic for [lia]. *)
Ltac Zify.zify_post_hook ::= Z.to_euclidean_division_equations.

(** ** Bytes and JavaScript strings *)

Module Js.

(** A JavaScript string: its UTF-16 code units. *)
Definition jsstring := list N.

(** A Node [Buffer]. *)
Definition bytes := list byte.

Definition byte_of_N (n : N) : byte :=
  match Byte.of_N (n mod 256) with
  | Some b => b
  | None => Byte.x00
  end.

(** The code units of an ASCII literal of the source. *)
Fixpoint lit (s : string) : jsstring :=
  match s with
  | EmptyString => []
  | String a rest => N_of_ascii a :: lit rest
  end.

(** [!s] for a string [s]: only the empty string is falsy. *)
Definition falsy (s : jsstring) : bool :=
  match s with [] => true | _ => false end.

(** [buf.subarray(start, end)] and [buf.subarray(start)]: both indices
    are clamped to the length of the buffer. *)
Definition subarray (start stop : nat) (b : bytes) : bytes :=
  take (stop - start)%nat (drop start b).

Definition subarray_from (start : nat) (b : bytes) : bytes := drop start b.

End Js.
Import Js.

(** ** [Buffer.from(s, "base64")] and [buf.toString("base64")] *)

Module Base64.

Definition alphabet : jsstring :=
  lit "ABCDEFGHIJKLMNOPQRSTUVWXYZabcdefghijklmnopqrstuvwxyz0123456789+/".

Definition pad : N := 61.

Definition b64_char (i : N) : N := nth (N.to_nat i) alphabet pad.

(** Node's decoding table: the standard alphabet and the URL-safe
    variants [-] and [_]. *)
Definition unbase64 (c : N) : option N :=
  if (65 <=? c) && (c <=? 90) then Some (c - 65)
  else if (97 <=? c) && (c <=? 122) then Some (c - 71)
  else if (48 <=? c) && (c <=? 57) then Some (c + 4)
  else if (c =? 43) || (c =? 45) then Some 62
  else if (c =? 47) || (c =? 95) then Some 63
  else None.

(** [buf.toString("base64")]: three bytes give four characters, the last
    group is padded with [=]. *)
Fixpoint encode (b : bytes) : jsstring :=
  match b with
  | [] => []
  | [x] =>
      let x := Byte.to_N x in
      [b64_char (x / 4); b64_char (x mod 4 * 16); pad; pad]
  | [x; y] =>
      let x := Byte.to_N x in
      let y := Byte.to_N y in
      [b64_char (x / 4); b64_char (x mod 4 * 16 + y / 16);
       b64_char (y mod 16 * 4); pad]
  | x :: y :: z :: rest =>
      let x := Byte.to_N x in
      let y := Byte.to_N y in
      let z := Byte.to_N z in
      b64_char (x / 4) :: b64_char (x mod 4 * 16 + y / 16)
      :: b64_char (y mod 16 * 4 + z / 64) :: b64_char (z mod 64)
      :: encode rest
  end.

(** The decoder is lenient: a character outside the table is skipped,
    the first [=] ends the input.  It reads every code unit through its
    low byte (the table is indexed by a [uint8_t]), so that U+0141 counts
    as [A] and U+013D as [=]. *)
Fixpoint sextets (s : jsstring) : list N :=
  match s with
  | [] => []
  | c :: rest =>
      let c := c mod 256 in
      match unbase64 c with
      | Some v => v :: sextets rest
      | None => if c =? pad then [] else sextets rest
      end
  end.

(** Four sextets give three bytes; two or three left-over sextets give
    one or two bytes (the unused low bits are dropped), a single one
    gives nothing. *)
Fixpoint unpack (v : list N) : bytes :=
  match v with
  | a :: b :: c :: d :: rest =>
      byte_of_N (a * 4 + b / 16) :: byte_of_N (b mod 16 * 16 + c / 4)
      :: byte_of_N (c mod 4 * 64 + d) :: unpack rest
  | [a; b; c] =>
      [byte_of_N (a * 4 + b / 16); byte_of_N (b mod 16 * 16 + c / 4)]
  | [a; b] => [byte_of_N (a * 4 + b / 16)]
  | _ => []
  end.

Definition decode (s : jsstring) : bytes := unpack (sextets s).

End Base64.

(** ** [Buffer.from(s, "utf-8")] and [buf.toString("utf-8")] *)

Module Utf8.

(** U+FFFD, which replaces what cannot be encoded or decoded. *)
Definition replacement : N := 0xFFFD.

Definition is_high (u : N) : bool := (0xD800 <=? u) && (u <=? 0xDBFF).
Definition is_low (u : N) : bool := (0xDC00 <=? u) && (u <=? 0xDFFF).

(** The UTF-8 bytes of one code point. *)
Definition encode_cp (c : N) : bytes :=
  if c <? 0x80 then [byte_of_N c]
  else if c <? 0x800 then
    [byte_of_N (0xC0 + c / 64); byte_of_N (0x80 + c mod 64)]
  else if c <? 0x10000 then
    [byte_of_N (0xE0 + c / 4096); byte_of_N (0x80 + c / 64 mod 64);
     byte_of_N (0x80 + c mod 64)]
  else
    [byte_of_N (0xF0 + c / 262144); byte_of_N (0x80 + c / 4096 mod 64);
     byte_of_N (0x80 + c / 64 mod 64); byte_of_N (0x80 + c mod 64)].

(** Encoding a string: a surrogate pair is one code point, a surrogate
    without its partner is written as U+FFFD. *)
Fixpoint encode (s : jsstring) : bytes :=
  match s with
  | [] => []
  | u :: rest =>
      if is_high u then
        match rest with
        | l :: rest' =>
            if is_low l then
              encode_cp (0x10000 + (u - 0xD800) * 1024 + (l - 0xDC00))
              ++ encode rest'
            else encode_cp replacement ++ encode rest
        | [] => encode_cp replacement
        end
      else if is_low u then encode_cp replacement ++ encode rest
      else encode_cp u ++ encode rest
  end.

(** The code units of one code point. *)
Definition units_of_cp (c : N) : jsstring :=
  if c <? 0x10000 then [c]
  else [0xD800 + (c - 0x10000) / 1024; 0xDC00 + (c - 0x10000) mod 1024].

Definition between (lo hi x : N) : bool := (lo <=? x) && (x <=? hi).

(** Decoding: an ill-formed sequence gives one U+FFFD and decoding resumes
    at the byte that broke it. *)
Fixpoint decode (b : bytes) : jsstring :=
  match b with
  | [] => []
  | b0 :: r0 =>
      let x0 := Byte.to_N b0 in
      if x0 <? 0x80 then x0 :: decode r0
      else if between 0xC2 0xDF x0 then
        match r0 with
        | [] => [replacement]
        | b1 :: r1 =>
            let x1 := Byte.to_N b1 in
            if between 0x80 0xBF x1 then
              units_of_cp ((x0 - 0xC0) * 64 + (x1 - 0x80)) ++ decode r1
            else replacement :: decode r0
        end
      else if between 0xE0 0xEF x0 then
        match r0 with
        | [] => [replacement]
        | b1 :: r1 =>
            let x1 := Byte.to_N b1 in
            if between (if x0 =? 0xE0 then 0xA0 else 0x80)
                       (if x0 =? 0xED then 0x9F else 0xBF) x1 then
              match r1 with
              | [] => [replacement]
              | b2 :: r2 =>
                  let x2 := Byte.to_N b2 in
                  if between 0x80 0xBF x2 then
                    units_of_cp ((x0 - 0xE0) * 4096 + (x1 - 0x80) * 64
                                 + (x2 - 0x80)) ++ decode r2
                  else replacement :: decode r1
              end
            else replacement :: decode r0
        end
      else if between 0xF0 0xF4 x0 then
        match r0 with
        | [] => [replacement]
        | b1 :: r1 =>
            let x1 := Byte.to_N b1 in
            if between (if x0 =? 0xF0 then 0x90 else 0x80)
                       (if x0 =? 0xF4 then 0x8F else 0xBF) x1 then
              match r1 with
              | [] => [replacement]
              | b2 :: r2 =>
                  let x2 := Byte.to_N b2 in
                  if between 0x80 0xBF x2 then
                    match r2 with
                    | [] => [replacement]
                    | b3 :: r3 =>
                        let x3 := Byte.to_N b3 in
                        if between 0x80 0xBF x3 then
                          units_of_cp ((x0 - 0xF0) * 262144
                                       + (x1 - 0x80) * 4096
                                       + (x2 - 0x80) * 64 + (x3 - 0x80))
                          ++ decode r3
                        else replacement :: decode r2
                    end
                  else replacement :: decode r1
              end
            else replacement :: decode r0
        end
      else replacement :: decode r0
  end.

(** A string that UTF-8 can carry: every code unit is a 16-bit value and
    every surrogate is half of a pair. *)
Fixpoint well_formed (s : jsstring) : bool :=
  match s with
  | [] => true
  | u :: rest =>
      if is_high u then
        match rest with
        | l :: rest' => is_low l && well_formed rest'
        | [] => false
        end
      else if is_low u then false
      else (u <? 0x10000) && well_formed rest
  end.

(** A Unicode scalar value: a code point that is not a surrogate. *)
Definition scalar (c : N) : Prop := c < 0xD800 ∨ 0xE000 <= c < 0x110000.

End Utf8.

(** ** Errors and results *)

(** Every [throw new Error(...)] of the repository, and the one error of
    Node's [crypto] that the code can meet. *)
Inductive error : Type :=
  | Plaintext_not_a_non_empty_string
  | Ciphertext_not_a_non_empty_string
  | Master_key_not_32_bytes (received : nat)
  | Invalid_ciphertext_too_short
  | Unable_to_authenticate_data
  | Decryption_failed (cause : error)
  | MasterKey_is_required
  | Config_master_key_not_32_bytes (received : nat)
  | Not_properly_configured
  | UserId_is_required
  | Provider_is_required
  | ApiKey_is_required
  | Only_gemini_is_supported
  | Gemini_key_appears_invalid
  | No_key_found
  | Prompt_is_required
  | Upstream (message : string).

Inductive result (A : Type) : Type :=
  | Ok (a : A)
  | Throw (e : error).
Arguments Ok {A} a.
Arguments Throw {A} e.

(** The [message] of the thrown [Error]. *)
Fixpoint message (e : error) : string :=
  match e with
  | Plaintext_not_a_non_empty_string => "Plaintext must be a non-empty string"
  | Ciphertext_not_a_non_empty_string => "Ciphertext must be a non-empty string"
  | Master_key_not_32_bytes n =>
      "Master key must be exactly 32 bytes (256 bits). Received "
      +:+ pretty n +:+ " bytes."
  | Invalid_ciphertext_too_short => "Invalid ciphertext format: too short"
  | Unable_to_authenticate_data =>
      "Unsupported state or unable to authenticate data"
  | Decryption_failed cause => "Decryption failed: " +:+ message cause
  | MasterKey_is_required => "masterKey is required in BYOK configuration"
  | Config_master_key_not_32_bytes n =>
      "Master key must be exactly 32 bytes (256 bits). Received "
      +:+ pretty n +:+ " bytes. Generate a key using: openssl rand -base64 32"
  | Not_properly_configured => "BYOK is not properly configured"
  | UserId_is_required => "userId is required"
  | Provider_is_required => "provider is required"
  | ApiKey_is_required => "apiKey is required"
  | Only_gemini_is_supported =>
      "Only provider 'gemini' is supported in this preview"
  | Gemini_key_appears_invalid => "Gemini API key appears invalid"
  | No_key_found => "No key found for this user/provider"
  | Prompt_is_required => "prompt is required"
  | Upstream m => m
  end.

(** ** Node's [crypto] module *)

(** [crypto.randomBytes]: the operating system's random source is a tape
    of bytes that is read from left to right. *)
Record Rng : Type := { tape : nat → byte; pos : nat }.

Definition randomBytes (n : nat) (g : Rng) : bytes * Rng :=
  (map (tape g) (seq (pos g) n), {| tape := tape g; pos := pos g + n |}).

(** PBKDF2 and AES-256-GCM.  [gcm_encrypt key iv data] is the pair of
    [Buffer.concat([cipher.update(data), cipher.final()])] and
    [cipher.getAuthTag()]; [gcm_decrypt key iv tag data] is
    [Buffer.concat([decipher.update(data), decipher.final()])] after
    [decipher.setAuthTag(tag)], and [None] when [final] throws because the
    tag does not verify. *)
Class Crypto : Type := {
  pbkdf2Sync : bytes → bytes → N → nat → string → bytes;
  gcm_encrypt : bytes → bytes → bytes → bytes * bytes;
  gcm_decrypt : bytes → bytes → bytes → bytes → option bytes;
}.

(** What the code relies on: the derived key has the requested length, the
    tag has 16 bytes, counter mode keeps the length of the data, and
    decryption opens what encryption sealed under the same key and IV. *)
Class CryptoLaws `{Crypto} : Prop := {
  pbkdf2_length pw salt iterations keylen digest :
    length (pbkdf2Sync pw salt iterations keylen digest) = keylen;
  gcm_tag_length key iv data :
    length key = 32%nat → length (gcm_encrypt key iv data).2 = 16%nat;
  gcm_data_length key iv data :
    length key = 32%nat →
    length (gcm_encrypt key iv data).1 = length data;
  gcm_decrypt_encrypt key iv data :
    length key = 32%nat →
    gcm_decrypt key iv (gcm_encrypt key iv data).2 (gcm_encrypt key iv data).1
    = Some data;
}.

(** How GCM verifies: [final] computes the tag of the key, the IV and the
    data again and compares it with the 16 bytes given to [setAuthTag];
    counter mode is one-to-one on the data.  So what opens under a key and
    an IV is what [gcm_encrypt] produces under them, and the encrypted
    data determines what was sealed.  (That no other key, IV or data leads
    to the same tag is not part of it: with 16 bytes of tag this holds for
    no function, it is only infeasible to find them.) *)
Class GcmAuthentic `{Crypto} : Prop := {
  gcm_decrypt_sound key iv tag data opened :
    length key = 32%nat → length tag = 16%nat →
    gcm_decrypt key iv tag data = Some opened →
    gcm_encrypt key iv opened = (data, tag);
  gcm_data_inj key iv opened opened' :
    length key = 32%nat →
    (gcm_encrypt key iv opened).1 = (gcm_encrypt key iv opened').1 →
    opened = opened';
}.

(** [string | Buffer] *)
Inductive MasterKey : Type :=
  | KeyBuffer (b : bytes)
  | KeyString (s : jsstring).

(** ** [core/Encryption.ts] *)

Module Encryption.
Section Encryption.
Context {C : Crypto}.

Definition algorithm : string := "aes-256-gcm".
Definition keyLength : nat := 32.
Definition ivLength : nat := 16.
Definition saltLength : nat := 32.
Definition tagLength : nat := 16.

(** [Buffer.isBuffer(masterKey) ? masterKey : Buffer.from(masterKey, "utf-8")] *)
Definition keyBuffer (masterKey : MasterKey) : bytes :=
  match masterKey with
  | KeyBuffer b => b
  | KeyString s => Utf8.encode s
  end.

Definition validateMasterKey (masterKey : MasterKey) : result unit :=
  let keyBuffer := keyBuffer masterKey in
  if negb (length keyBuffer =? keyLength)%nat
  then Throw (Master_key_not_32_bytes (length keyBuffer))
  else Ok tt.

(** Returns [{ key, salt }]. *)
Definition deriveKey (masterKey : MasterKey) (salt : option bytes) (g : Rng)
  : (bytes * bytes) * Rng :=
  let masterKeyBuffer := keyBuffer masterKey in
  let drawn :=
    match salt with
    | Some s => (s, g)
    | None => randomBytes saltLength g
    end in
  let saltBuffer := drawn.1 in
  let iterations := 100000 in
  let key := pbkdf2Sync masterKeyBuffer saltBuffer iterations keyLength "sha256" in
  ((key, saltBuffer), drawn.2).

Definition encrypt (plaintext : jsstring) (masterKey : MasterKey) (g : Rng)
  : result jsstring * Rng :=
  if falsy plaintext then (Throw Plaintext_not_a_non_empty_string, g)
  else
    match validateMasterKey masterKey with
    | Throw e => (Throw e, g)
    | Ok _ =>
        let derived := deriveKey masterKey None g in
        let key := derived.1.1 in
        let salt := derived.1.2 in
        let drawn := randomBytes ivLength derived.2 in
        let iv := drawn.1 in
        let sealed := gcm_encrypt key iv (Utf8.encode plaintext) in
        let encrypted := sealed.1 in
        let tag := sealed.2 in
        let combined := salt ++ iv ++ tag ++ encrypted in
        (Ok (Base64.encode combined), drawn.2)
    end.

(** The four [subarray] calls of [decrypt]:
    salt, iv, tag and the encrypted data. *)
Definition components (combined : bytes) : bytes * bytes * bytes * bytes :=
  let salt := subarray 0 saltLength combined in
  let iv := subarray saltLength (saltLength + ivLength) combined in
  let tag :=
    subarray (saltLength + ivLength) (saltLength + ivLength + tagLength)
             combined in
  let encrypted := subarray_from (saltLength + ivLength + tagLength) combined in
  (salt, iv, tag, encrypted).

(** The body of the [try] block of [decrypt]. *)
Definition decrypt_body (ciphertext : jsstring) (masterKey : MasterKey)
    (g : Rng) : result jsstring * Rng :=
  let combined := Base64.decode ciphertext in
  if (length combined <? saltLength + ivLength + tagLength)%nat
  then (Throw Invalid_ciphertext_too_short, g)
  else
    let '(salt, iv, tag, encrypted) := components combined in
    let derived := deriveKey masterKey (Some salt) g in
    let key := derived.1.1 in
    match gcm_decrypt key iv tag encrypted with
    | None => (Throw Unable_to_authenticate_data, derived.2)
    | Some decrypted => (Ok (Utf8.decode decrypted), derived.2)
    end.

(** Every error of the [try] block is an [Error], so the [catch] block
    always takes its first branch. *)
Definition decrypt (ciphertext : jsstring) (masterKey : MasterKey) (g : Rng)
  : result jsstring * Rng :=
  if falsy ciphertext then (Throw Ciphertext_not_a_non_empty_string, g)
  else
    match validateMasterKey masterKey with
    | Throw e => (Throw e, g)
    | Ok _ =>
        match decrypt_body ciphertext masterKey g with
        | (Throw e, g') => (Throw (Decryption_failed e), g')
        | (Ok plaintext, g') => (Ok plaintext, g')
        end
    end.

(** [generateMasterKey()] *)
Definition generateMasterKey (g : Rng) : jsstring * Rng :=
  let drawn := randomBytes 32 g in
  (Base64.encode drawn.1, drawn.2).

End Encryption.
End Encryption.


(** ** The transcript of one encryption *)

Section transcript.
Import Encryption.
Context {C : Crypto}.

(** The salt and the IV that [encrypt] draws when the random source is in
    state [g], and the key and the sealed data they lead to. *)
Definition drawn_salt (g : Rng) : bytes := (randomBytes saltLength g).1.

Definition drawn_iv (g : Rng) : bytes :=
  (randomBytes ivLength (randomBytes saltLength g).2).1.

Definition derived_key (masterKey : MasterKey) (salt : bytes) : bytes :=
  pbkdf2Sync (keyBuffer masterKey) salt 100000 keyLength "sha256".

Definition sealed (plaintext : jsstring) (masterKey : MasterKey) (g : Rng)
  : bytes * bytes :=
  gcm_encrypt (derived_key masterKey (drawn_salt g)) (drawn_iv g)
              (Utf8.encode plaintext).

Definition after_encrypt (g : Rng) : Rng :=
  (randomBytes ivLength (randomBytes saltLength g).2).2.

(** The blob that [encrypt] returns. *)
Definition blob_of (plaintext : jsstring) (masterKey : MasterKey) (g : Rng)
  : jsstring :=
  Base64.encode (drawn_salt g ++ drawn_iv g
                 ++ (sealed plaintext masterKey g).2
                 ++ (sealed plaintext masterKey g).1).

(** The bytes that [encrypt] packs when it seals the data [opened] under
    the salt [salt] and the IV [iv]. *)
Definition envelope (masterKey : MasterKey) (salt iv opened : bytes) : bytes :=
  let sealed := gcm_encrypt (derived_key masterKey salt) iv opened in
  salt ++ iv ++ sealed.2 ++ sealed.1.

End transcript.

(** ** A stand-in cipher

    The contracts [CryptoLaws] and [GcmAuthentic] are not empty: these
    functions meet them.
    The derived key is cut from the password and the salt, the data is
    reversed, and the tag is the first half of the key. *)

#[global] Instance byte_eq_dec : EqDecision byte := Byte.byte_eq_dec.

Definition toy_pbkdf2 (pw salt : bytes) (iterations : N) (keylen : nat)
    (digest : string) : bytes :=
  take keylen (pw ++ salt ++ replicate keylen Byte.x00).

Definition toy_seal (key iv data : bytes) : bytes * bytes :=
  (rev data, take 16 key).

Definition toy_open (key iv tag data : bytes) : option bytes :=
  if bool_decide (tag = take 16 key) then Some (rev data) else None.

Definition toy_crypto : Crypto :=
  {| pbkdf2Sync := toy_pbkdf2; gcm_encrypt := toy_seal; gcm_decrypt := toy_open |}.

(** ** Regular expressions over code units

    A JavaScript regular expression without flags works on UTF-16 code
    units.  [test_anchored r s] is [/^r$/.test(s)]. *)

Module Regex.

Inductive regex : Type :=
  | Void
  | Eps
  | Class (ranges : list (N * N))
  | Seq (r1 r2 : regex)
  | Alt (r1 r2 : regex)
  | Star (r : regex).

(** One literal character. *)
Definition Chr (c : string) : regex :=
  Class (map (λ u, (u, u)) (lit c)).

Fixpoint power (n : nat) (r : regex) : regex :=
  match n with
  | O => Eps
  | S n' => Seq r (power n' r)
  end.

(** [r{n,}] *)
Definition at_least (n : nat) (r : regex) : regex := Seq (power n r) (Star r).

Definition in_class (ranges : list (N * N)) (c : N) : bool :=
  existsb (λ range, (range.1 <=? c) && (c <=? range.2)) ranges.

Fixpoint nullable (r : regex) : bool :=
  match r with
  | Void => false
  | Eps => true
  | Class _ => false
  | Seq r1 r2 => nullable r1 && nullable r2
  | Alt r1 r2 => nullable r1 || nullable r2
  | Star _ => true
  end.

(** What is left of [r] after reading [c]. *)
Fixpoint deriv (c : N) (r : regex) : regex :=
  match r with
  | Void => Void
  | Eps => Void
  | Class ranges => if in_class ranges c then Eps else Void
  | Seq r1 r2 =>
      if nullable r1 then Alt (Seq (deriv c r1) r2) (deriv c r2)
      else Seq (deriv c r1) r2
  | Alt r1 r2 => Alt (deriv c r1) (deriv c r2)
  | Star r1 => Seq (deriv c r1) (Star r1)
  end.

Fixpoint matches (r : regex) (s : jsstring) : bool :=
  match s with
  | [] => nullable r
  | c :: rest => matches (deriv c r) rest
  end.

Definition test_anchored (r : regex) (s : jsstring) : bool := matches r s.

(** The strings of a regular expression. *)
Inductive Lang : regex → jsstring → Prop :=
  | Lang_Eps : Lang Eps []
  | Lang_Class ranges c : in_class ranges c = true → Lang (Class ranges) [c]
  | Lang_Seq r1 r2 s1 s2 : Lang r1 s1 → Lang r2 s2 → Lang (Seq r1 r2) (s1 ++ s2)
  | Lang_Alt_l r1 r2 s : Lang r1 s → Lang (Alt r1 r2) s
  | Lang_Alt_r r1 r2 s : Lang r2 s → Lang (Alt r1 r2) s
  | Lang_Star_nil r : Lang (Star r) []
  | Lang_Star_app r s1 s2 :
      Lang r s1 → Lang (Star r) s2 → Lang (Star r) (s1 ++ s2).

End Regex.

(** ** [providers/types.ts], [stores/types.ts], [stores/MemoryStore.ts] *)

(** [type ProviderId = "gemini"] *)
Inductive ProviderId : Type := gemini.

#[global] Instance ProviderId_eq_dec : EqDecision ProviderId.
Proof. solve_decision. Defined.

Definition provider_string (p : ProviderId) : jsstring :=
  match p with gemini => lit "gemini" end.

Record KeyRecord : Type := {
  userId : jsstring;
  provider : ProviderId;
  encryptedKey : jsstring;
  createdAt : N;
}.

(** [interface KeyStore]; [S] is the state behind the store object. *)
Class KeyStore (S : Type) : Type := {
  store_set : KeyRecord → S → S;
  store_get : jsstring → ProviderId → S → option KeyRecord * S;
  store_delete : jsstring → ProviderId → S → bool * S;
  store_has : jsstring → ProviderId → S → bool * S;
}.

Module MemoryStore.

(** [new Map<string, KeyRecord>()] *)
Abbreviation t := (gmap jsstring KeyRecord).

(** [`${userId}:${provider}`] *)
Definition key (userId : jsstring) (provider : ProviderId) : jsstring :=
  userId ++ lit ":" ++ provider_string provider.

Definition set (record : KeyRecord) (store : t) : t :=
  <[key (userId record) (provider record) := record]> store.

Definition get (userId : jsstring) (provider : ProviderId) (store : t)
  : option KeyRecord :=
  store !! key userId provider.

Definition delete (userId : jsstring) (provider : ProviderId) (store : t)
  : bool * t :=
  (bool_decide (is_Some (store !! key userId provider)),
   base.delete (key userId provider) store).

Definition has (userId : jsstring) (provider : ProviderId) (store : t) : bool :=
  bool_decide (is_Some (store !! key userId provider)).

#[global] Instance keyStore : KeyStore t := {|
  store_set := set;
  store_get u p s := (get u p s, s);
  store_delete := delete;
  store_has u p s := (has u p s, s);
|}.

End MemoryStore.

(** ** The world around the vault

    The random source, the state of the store object, the clock read by
    [new Date()], and a record of the calls made to the cipher, the store
    and the provider adapter. *)

Inductive call : Type :=
  | Call_encrypt
  | Call_decrypt
  | Call_store_set
  | Call_store_get
  | Call_store_delete
  | Call_store_has
  | Call_provider.

Record World (S : Type) : Type := {
  rng : Rng;
  store : S;
  clock : N;
  calls : list call;
}.
Arguments rng {S} w.
Arguments store {S} w.
Arguments clock {S} w.
Arguments calls {S} w.

(** A computation that may throw and may change the world. *)
Definition M (S A : Type) : Type := World S → result A * World S.

Definition ret {S A} (a : A) : M S A := λ w, (Ok a, w).

Definition throw {S A} (e : error) : M S A := λ w, (Throw e, w).

Definition bind {S A B} (m : M S A) (k : A → M S B) : M S B :=
  λ w, match m w with
       | (Ok a, w') => k a w'
       | (Throw e, w') => (Throw e, w')
       end.

Notation "'let*' x := m 'in' k" := (bind m (λ x, k))
  (at level 10, x name, m at level 100, k at level 200).

(** A synchronous check that throws before anything else happens. *)
Definition lift {S A} (r : result A) : M S A := λ w, (r, w).

(** Updates of one field of the world. *)
Definition noted {S} (c : call) (w : World S) : World S :=
  {| rng := rng w; store := store w; clock := clock w;
     calls := calls w ++ [c] |}.

Definition set_rng {S} (g : Rng) (w : World S) : World S :=
  {| rng := g; store := store w; clock := clock w; calls := calls w |}.

Definition set_store {S} (s : S) (w : World S) : World S :=
  {| rng := rng w; store := s; clock := clock w; calls := calls w |}.

Definition called {S} (c : call) : M S unit := λ w, (Ok tt, noted c w).

(** [new Date()] *)
Definition new_Date {S} : M S N := λ w, (Ok (clock w), w).

(** ** [providers/gemini.ts] *)

(** The call to the Google SDK:
    [getGenerativeModel({ model }).generateContent(...)] with the client
    made from [apiKey], then [result.response.text()]. *)
Class GoogleGenerativeAI : Type := {
  generateContent : jsstring → jsstring → jsstring → result (option jsstring);
}.

Record ChatRequest : Type := {
  prompt : option jsstring;
  model : option jsstring;
}.

Record ChatResponse : Type := { text : jsstring }.

(** The value of a field that may be missing; a missing field is falsy as
    the empty string is. *)
Definition str (field : option jsstring) : jsstring :=
  match field with
  | Some s => s
  | None => []
  end.

Module GeminiProvider.
Section GeminiProvider.
Context {G : GoogleGenerativeAI}.

(** The client made by the constructor is determined by [apiKey]. *)
Record t : Type := { client : jsstring }.

Definition new (apiKey : jsstring) : t := {| client := apiKey |}.

Definition chat (self : t) (input : ChatRequest) : result ChatResponse :=
  if falsy (str (prompt input)) then Throw Prompt_is_required
  else
    let modelId :=
      if falsy (str (model input)) then lit "gemini-1.5-flash"
      else str (model input) in
    match generateContent (client self) modelId (str (prompt input)) with
    | Throw e => Throw e
    | Ok text => Ok {| text := str text |}
    end.

End GeminiProvider.
End GeminiProvider.

(** ** [core/index.ts] *)

Module RegisterKeyInput.
Record t : Type := {
  userId : option jsstring;
  provider : option jsstring;
  apiKey : option jsstring;
}.
End RegisterKeyInput.

Module ChatInput.
Record t : Type := {
  prompt : option jsstring;
  model : option jsstring;
  provider : option jsstring;
}.
End ChatInput.

Module BYOK.
Section BYOK.
Context {C : Crypto} {G : GoogleGenerativeAI} {S : Type} {K : KeyStore S}.

(** The instance: the [Encryption] object has no state and the store
    object lives in the world. *)
Record t : Type := { masterKey : bytes }.

(** [/^AI[a-zA-Z0-9_-]{10,}$/] *)
Definition gemini_key_pattern : Regex.regex :=
  Regex.Seq (Regex.Chr "A")
    (Regex.Seq (Regex.Chr "I")
       (Regex.at_least 10
          (Regex.Class [(97, 122); (65, 90); (48, 57); (95, 95); (45, 45)]))).

Definition normalizeMasterKey (masterKey : MasterKey) : bytes :=
  match masterKey with
  | KeyBuffer b => b
  | KeyString s =>
      let base64Buffer := Base64.decode s in
      if (length base64Buffer =? 32)%nat then base64Buffer
      else Utf8.encode s
  end.

(** [!config.masterKey]: a missing key and the empty string are falsy, a
    buffer never is. *)
Definition missing (masterKey : option MasterKey) : bool :=
  match masterKey with
  | None => true
  | Some (KeyString s) => falsy s
  | Some (KeyBuffer _) => false
  end.

Definition constructor (config_masterKey : option MasterKey) : result t :=
  match config_masterKey with
  | None => Throw MasterKey_is_required
  | Some key =>
      if missing config_masterKey then Throw MasterKey_is_required
      else
        let masterKey := normalizeMasterKey key in
        if negb (length masterKey =? 32)%nat
        then Throw (Config_master_key_not_32_bytes (length masterKey))
        else Ok {| masterKey := masterKey |}
  end.

Definition ensureValid (self : t) : result unit :=
  if negb (length (masterKey self) =? 32)%nat
  then Throw Not_properly_configured
  else Ok tt.

(** The calls to the collaborators, each noted in [calls]. *)
Definition encryption_encrypt (plaintext : jsstring) (key : bytes)
  : M S jsstring :=
  let* _ := called Call_encrypt in
  λ w, let r := Encryption.encrypt plaintext (KeyBuffer key) (rng w) in
       (r.1, set_rng r.2 w).

Definition encryption_decrypt (ciphertext : jsstring) (key : bytes)
  : M S jsstring :=
  let* _ := called Call_decrypt in
  λ w, let r := Encryption.decrypt ciphertext (KeyBuffer key) (rng w) in
       (r.1, set_rng r.2 w).

Definition with_store {A} (f : S → A * S) : M S A :=
  λ w, let r := f (store w) in (Ok r.1, set_store r.2 w).

Definition registerKey (self : t) (input : RegisterKeyInput.t) : M S unit :=
  let* _ := lift (ensureValid self) in
  if falsy (str (RegisterKeyInput.userId input)) then throw UserId_is_required
  else if falsy (str (RegisterKeyInput.provider input))
  then throw Provider_is_required
  else if falsy (str (RegisterKeyInput.apiKey input))
  then throw ApiKey_is_required
  else if negb (bool_decide (str (RegisterKeyInput.provider input) = lit "gemini"))
  then throw Only_gemini_is_supported
  else if negb (Regex.test_anchored gemini_key_pattern
                  (str (RegisterKeyInput.apiKey input)))
  then throw Gemini_key_appears_invalid
  else
    let* encryptedKey :=
      encryption_encrypt (str (RegisterKeyInput.apiKey input)) (masterKey self) in
    let* now := new_Date in
    let* _ := called Call_store_set in
    with_store (λ s,
      (tt, store_set {| userId := str (RegisterKeyInput.userId input);
                        provider := gemini;
                        encryptedKey := encryptedKey;
                        createdAt := now |} s)).

Definition deleteKey (self : t) (userId : jsstring) (provider : ProviderId)
  : M S bool :=
  let* _ := lift (ensureValid self) in
  let* _ := called Call_store_delete in
  with_store (store_delete userId provider).

Definition hasKey (self : t) (userId : jsstring) (provider : ProviderId)
  : M S bool :=
  let* _ := lift (ensureValid self) in
  let* _ := called Call_store_has in
  with_store (store_has userId provider).

(** The object returned by [use]. *)
Record handle : Type := { chat : ChatInput.t → M S ChatResponse }.

(** The [chat] method of that object; it closes over [self] and [userId]. *)
Definition handle_chat (self : t) (userId : jsstring) (input : ChatInput.t)
  : M S ChatResponse :=
  let provider :=
    if falsy (str (ChatInput.provider input)) then lit "gemini"
    else str (ChatInput.provider input) in
  if negb (bool_decide (provider = lit "gemini"))
  then throw Only_gemini_is_supported
  else
    let* _ := called Call_store_get in
    let* record := with_store (store_get userId gemini) in
    match record with
    | None => throw No_key_found
    | Some record =>
        let* apiKey :=
          encryption_decrypt (encryptedKey record) (masterKey self) in
        let* _ := called Call_provider in
        let gemini := GeminiProvider.new apiKey in
        lift (GeminiProvider.chat gemini
                {| prompt := ChatInput.prompt input;
                   model := ChatInput.model input |})
    end.

Definition use (self : t) (userId : jsstring) : result handle :=
  match ensureValid self with
  | Throw e => Throw e
  | Ok _ => Ok {| chat := handle_chat self userId |}
  end.

End BYOK.
End BYOK.

(** ** Concrete inputs used in the examples *)

(** A random source that counts upwards, and one that is stuck. *)
Definition counting_rng : Rng :=
  {| tape := λ i, byte_of_N (N.of_nat i); pos := 0 |}.

Definition stuck_rng : Rng := {| tape := λ _, Byte.x00; pos := 0 |}.

(** Thirty-two bytes [k]. *)
Definition sample_key : MasterKey := KeyBuffer (replicate 32 Byte.x6b).

(** ** An alteration of a blob

    [nudge] replaces the character before the last one by the next
    character of the alphabet: in a blob that ends with one [=], this
    changes only the two bits that the last data character does not use. *)

Definition next_char (c : N) : N :=
  match Base64.unbase64 c with
  | Some v => Base64.b64_char (v + 1)
  | None => c
  end.

Fixpoint nudge (s : jsstring) : jsstring :=
  match s with
  | [] => []
  | c :: rest =>
      match rest with
      | [_] => next_char c :: rest
      | _ => c :: nudge rest
      end
  end.

(** ** Inputs of [registerKey] that pass every check *)

Definition register_input (userId provider apiKey : jsstring)
  : RegisterKeyInput.t :=
  {| RegisterKeyInput.userId := Some userId;
     RegisterKeyInput.provider := Some provider;
     RegisterKeyInput.apiKey := Some apiKey |}.

(** The text of the specification for the shape of a Gemini key: the
    prefix [AI], then at least ten ASCII letters, digits, hyphens or
    underscores. *)
Definition key_char (c : N) : bool :=
  ((97 <=? c) && (c <=? 122)) || ((65 <=? c) && (c <=? 90))
  || ((48 <=? c) && (c <=? 57)) || (c =? 45) || (c =? 95).

Definition gemini_key_shape (apiKey : jsstring) : bool :=
  match apiKey with
  | a :: i :: rest =>
      (a =? 65) && (i =? 73) && (10 <=? length rest)%nat
      && forallb key_char rest
  | _ => false
  end.

(** The record that a successful [registerKey] writes. *)
Definition registered_record {C : Crypto} (self : BYOK.t) (user apiKey : jsstring)
    {S : Type} (w : World S) : KeyRecord :=
  {| userId := user; provider := gemini;
     encryptedKey := blob_of apiKey (KeyBuffer (BYOK.masterKey self)) (rng w);
     createdAt := clock w |}.

(** A store whose records sit under the key of their own identity, as in
    every store that [set] and [delete] build from the empty map. *)
Definition indexed (store : MemoryStore.t) : Prop :=
  ∀ k r, store !! k = Some r → k = MemoryStore.key (userId r) (provider r).

(** The records of one identity key. *)
Definition records_of (user : jsstring) (prov : ProviderId)
    (store : MemoryStore.t) : MemoryStore.t :=
  filter (λ kr : jsstring * KeyRecord,
            userId kr.2 = user ∧ provider kr.2 = prov) store.

(** The errors of the validation in [registerKey]. *)
Definition validation_error (e : error) : bool :=
  match e with
  | UserId_is_required | Provider_is_required | ApiKey_is_required
  | Only_gemini_is_supported | Gemini_key_appears_invalid => true
  | _ => false
  end.

(** An input that fails one of the checks of [registerKey]. *)
Definition rejected (input : RegisterKeyInput.t) : Prop :=
  falsy (str (RegisterKeyInput.userId input)) = true
  ∨ falsy (str (RegisterKeyInput.provider input)) = true
  ∨ falsy (str (RegisterKeyInput.apiKey input)) = true
  ∨ str (RegisterKeyInput.provider input) ≠ lit "gemini"
  ∨ Regex.test_anchored BYOK.gemini_key_pattern
      (str (RegisterKeyInput.apiKey input)) = false.

(** The stores that the operations of [MemoryStore] build. *)
Inductive built : MemoryStore.t → Prop :=
  | built_new : built ∅
  | built_set record store : built store → built (MemoryStore.set record store)
  | built_delete user prov store :
      built store → built (MemoryStore.delete user prov store).2.

(** The world after a successful [registerKey]. *)
Definition registered {C : Crypto} {S : Type} {K : KeyStore S} (self : BYOK.t)
    (user apiKey : jsstring) (w : World S) : World S :=
  {| rng := after_encrypt (rng w);
     store := store_set (registered_record self user apiKey w) (store w);
     clock := clock w;
     calls := calls w ++ [Call_encrypt; Call_store_set] |}.

(** A provider that answers with the prompt, an instance with the sample
    key, and an empty world. *)
Definition echo_gemini : GoogleGenerativeAI :=
  {| generateContent := λ _ _ prompt, Ok (Some prompt) |}.

Definition sample_self : BYOK.t := {| BYOK.masterKey := replicate 32 Byte.x6b |}.

Definition sample_world : World MemoryStore.t :=
  {| rng := counting_rng; store := ∅; clock := 1700000000000; calls := [] |}.

(** The key of the end-to-end scenario of the specification. *)
Definition sample_apiKey : jsstring := lit "AIzaSyAAAAAAAAAAAAAAAAAAAAAAAAAAA".

(** ** The earlier [BYOK] class of [core/index.ts]

    The file carries an earlier version of the class, without
    [normalizeMasterKey] and without operations on the store. *)

Module BYOK0.
Section BYOK0.
Context {S : Type}.

(** [this.store = config.store || null] *)
Record t : Type := { masterKey : bytes; store : option S }.

Definition constructor (config_masterKey : option MasterKey)
    (config_store : option S) : result t :=
  match config_masterKey with
  | None => Throw MasterKey_is_required
  | Some key =>
      if BYOK.missing config_masterKey then Throw MasterKey_is_required
      else
        let masterKey := Encryption.keyBuffer key in
        if negb (length masterKey =? 32)%nat
        then Throw (Config_master_key_not_32_bytes (length masterKey))
        else Ok {| masterKey := masterKey; store := config_store |}
  end.

Definition getMasterKey (self : t) : bytes := masterKey self.

Definition getStore (self : t) : option S := store self.

Definition isValid (self : t) : bool := (length (masterKey self) =? 32)%nat.

End BYOK0.
End BYOK0.

(** ** The demo server: [POST /keys/gemini]

    The handler reads [userId] and [apiKey] from the body (each a string
    or absent), registers the key and answers with JSON;
    [res.json] without [res.status] answers 200. *)

Record Response : Type := {
  status : N;
  ok : bool;
  error_message : option string;
}.

Definition post_keys_gemini {C : Crypto} {S : Type} {K : KeyStore S}
    (byok : BYOK.t) (body_userId body_apiKey : option jsstring) (w : World S)
  : Response * World S :=
  let registered :=
    BYOK.registerKey byok
      {| RegisterKeyInput.userId := body_userId;
         RegisterKeyInput.provider := Some (lit "gemini");
         RegisterKeyInput.apiKey := body_apiKey |} w in
  match registered.1 with
  | Ok _ => ({| status := 200; ok := true; error_message := None |},
             registered.2)
  | Throw e =>
      ({| status := 400; ok := false; error_message := Some (message e) |},
       registered.2)
  end.
(** ** Facts about bytes *)

Lemma byte_to_of_N (n : N) : Byte.to_N (byte_of_N n) = n mod 256.
Proof.
unfold byte_of_N.
destruct (Byte.of_N (n mod 256)) as [b|] eqn:E.
- by apply Byte.to_of_N.
- apply Byte.of_N_None_iff in E.
  pose proof (N.mod_upper_bound n 256). lia.
Qed.

Lemma byte_to_N_lt (b : byte) : Byte.to_N b < 256.
Proof. pose proof (Byte.to_N_bounded b). lia. Qed.

Lemma byte_of_to_N (b : byte) : byte_of_N (Byte.to_N b) = b.
Proof.
unfold byte_of_N. rewrite N.mod_small by apply byte_to_N_lt.
by rewrite Byte.of_to_N.
Qed.

Lemma byte_to_of_N_small (n : N) : n < 256 → Byte.to_N (byte_of_N n) = n.
Proof. intros. rewrite byte_to_of_N. by apply N.mod_small. Qed.

Lemma byte_of_N_inj_small (n : N) (b : byte) : Byte.to_N b = n → byte_of_N n = b.
Proof. intros <-. apply byte_of_to_N. Qed.

(** ** Base64 round trip *)

Section base64_facts.
Import Base64.

Lemma unbase64_b64_char (i : N) : i < 64 → unbase64 (b64_char i) = Some i.
Proof.
  intros Hi.
  assert (Hall : forallb (λ k, bool_decide
            (unbase64 (b64_char (N.of_nat k)) = Some (N.of_nat k))) (seq 0 64) = true)
    by (vm_compute; reflexivity).
  rewrite forallb_forall in Hall.
  assert (Hin : In (N.to_nat i) (seq 0 64)) by (apply in_seq; lia).
  apply Hall in Hin. rewrite N2Nat.id in Hin.
  by apply bool_decide_eq_true in Hin.
Qed.

Lemma b64_char_not_pad (i : N) : i < 64 → b64_char i ≠ pad.
Proof.
  intros Hi E. pose proof (unbase64_b64_char i Hi) as H.
  rewrite E in H. discriminate H.
Qed.

Lemma list_ind3 {A} (P : list A → Prop) :
  P [] → (∀ x, P [x]) → (∀ x y, P [x; y]) →
  (∀ x y z l, P l → P (x :: y :: z :: l)) →
  ∀ l, P l.
Proof.
  intros H0 H1 H2 H3.
  fix IH 1. intros [|x [|y [|z l]]]; [exact H0|exact (H1 x)|exact (H2 x y)|].
  exact (H3 x y z l (IH l)).
Qed.

Ltac byte_bounds :=
  repeat match goal with
  | b : byte |- _ =>
      lazymatch goal with
      | _ : Byte.to_N b < 256 |- _ => fail
      | _ => pose proof (byte_to_N_lt b)
      end
  end.

Lemma b64_char_low (i : N) : i < 64 → b64_char i mod 256 = b64_char i.
Proof.
  intros Hi.
  assert (Hall : forallb (λ k, bool_decide
            (b64_char (N.of_nat k) mod 256 = b64_char (N.of_nat k))) (seq 0 64) = true)
    by (vm_compute; reflexivity).
  rewrite forallb_forall in Hall.
  assert (Hin : In (N.to_nat i) (seq 0 64)) by (apply in_seq; lia).
  apply Hall in Hin. rewrite N2Nat.id in Hin.
  by apply bool_decide_eq_true in Hin.
Qed.

Lemma sextets_b64_char (i : N) (rest : jsstring) :
  i < 64 → sextets (b64_char i :: rest) = i :: sextets rest.
Proof.
  intros Hi. cbn [sextets]. cbv zeta.
  by rewrite (b64_char_low i Hi), (unbase64_b64_char i Hi).
Qed.

Lemma sextets_pad (rest : jsstring) : sextets (pad :: rest) = [].
Proof. reflexivity. Qed.

Ltac sextet_step :=
  rewrite sextets_b64_char
    by (byte_bounds; lia).

Lemma sextets_encode_decode (b : bytes) : decode (encode b) = b.
Proof.
  unfold decode. induction b as [|x|x y|x y z l IH] using list_ind3.
  - reflexivity.
  - cbn [encode]. do 2 sextet_step.
    rewrite sextets_pad. cbn [unpack].
    f_equal. apply byte_of_N_inj_small.
    byte_bounds; lia.
  - cbn [encode]. do 3 sextet_step.
    rewrite sextets_pad. cbn [unpack].
    f_equal; [|f_equal]; apply byte_of_N_inj_small;
      byte_bounds; lia.
  - cbn [encode]. do 4 sextet_step. cbn [unpack]. rewrite IH.
    f_equal; [|f_equal; [|f_equal]]; apply byte_of_N_inj_small;
      byte_bounds; lia.
Qed.

End base64_facts.

(** ** UTF-8 round trip *)

(** Decides the comparisons of the goal by linear arithmetic. *)
Ltac decide_cmp :=
  repeat match goal with
  | |- context [N.ltb ?a ?b] =>
      first [ rewrite (proj2 (N.ltb_lt a b)) by lia
            | rewrite (proj2 (N.ltb_ge a b)) by lia ]
  | |- context [N.leb ?a ?b] =>
      first [ rewrite (proj2 (N.leb_le a b)) by lia
            | rewrite (proj2 (N.leb_gt a b)) by lia ]
  | |- context [N.eqb ?a ?b] =>
      first [ rewrite (proj2 (N.eqb_eq a b)) by lia
            | rewrite (proj2 (N.eqb_neq a b)) by lia ]
  end.

Section utf8_facts.
Import Utf8.

(** One step of the decoder; the tails stay folded. *)
Lemma decode_cons (b0 : byte) (r0 : bytes) :
  decode (b0 :: r0)
  = ltac:(let t := eval cbn [decode] in (decode (b0 :: r0)) in exact t).
Proof. reflexivity. Qed.

Ltac decode_head :=
  rewrite decode_cons; cbv beta iota zeta; unfold between;
  rewrite ?byte_to_of_N_small by lia;
  do 4 (decide_cmp; cbn [andb orb]).

Lemma decode_ascii (c : N) (r : bytes) :
  c < 0x80 → decode (byte_of_N c :: r) = c :: decode r.
Proof. intros. decode_head. reflexivity. Qed.

Lemma decode_two (a d : N) (r : bytes) :
  2 <= a < 32 → d < 64 →
  decode (byte_of_N (0xC0 + a) :: byte_of_N (0x80 + d) :: r)
  = units_of_cp (a * 64 + d) ++ decode r.
Proof. intros. decode_head. do 2 f_equal. lia. Qed.

Lemma decode_three (a b d : N) (r : bytes) :
  a < 16 → b < 64 → d < 64 → (a = 0 → 32 <= b) → (a = 13 → b < 32) →
  decode (byte_of_N (0xE0 + a) :: byte_of_N (0x80 + b)
          :: byte_of_N (0x80 + d) :: r)
  = units_of_cp (a * 4096 + b * 64 + d) ++ decode r.
Proof.
  intros. destruct (N.eq_dec a 0); [|destruct (N.eq_dec a 13)];
    decode_head; do 2 f_equal; lia.
Qed.

Lemma decode_four (a b e d : N) (r : bytes) :
  a <= 4 → b < 64 → e < 64 → d < 64 → (a = 0 → 16 <= b) → (a = 4 → b < 16) →
  decode (byte_of_N (0xF0 + a) :: byte_of_N (0x80 + b)
          :: byte_of_N (0x80 + e) :: byte_of_N (0x80 + d) :: r)
  = units_of_cp (a * 262144 + b * 4096 + e * 64 + d) ++ decode r.
Proof.
  intros. destruct (N.eq_dec a 0); [|destruct (N.eq_dec a 4)];
    decode_head; do 2 f_equal; lia.
Qed.

Lemma decode_encode_cp (c : N) (r : bytes) :
  scalar c → decode (encode_cp c ++ r) = units_of_cp c ++ decode r.
Proof.
  unfold scalar, encode_cp. intros Hc.
  destruct (N.ltb_spec c 0x80); [|destruct (N.ltb_spec c 0x800);
    [|destruct (N.ltb_spec c 0x10000)]]; cbn [app].
  - rewrite decode_ascii by done. unfold units_of_cp.
    by rewrite (proj2 (N.ltb_lt c _)) by lia.
  - rewrite decode_two by lia. do 2 f_equal. lia.
  - rewrite decode_three by lia. do 2 f_equal. lia.
  - rewrite decode_four by lia. do 2 f_equal. lia.
Qed.

Lemma is_high_spec (u : N) : is_high u = true ↔ 0xD800 <= u <= 0xDBFF.
Proof. unfold is_high. rewrite andb_true_iff, !N.leb_le. tauto. Qed.

Lemma is_low_spec (u : N) : is_low u = true ↔ 0xDC00 <= u <= 0xDFFF.
Proof. unfold is_low. rewrite andb_true_iff, !N.leb_le. tauto. Qed.

Lemma is_high_false (u : N) : is_high u = false ↔ u < 0xD800 ∨ 0xDBFF < u.
Proof. unfold is_high. rewrite andb_false_iff, !N.leb_gt. tauto. Qed.

Lemma is_low_false (u : N) : is_low u = false ↔ u < 0xDC00 ∨ 0xDFFF < u.
Proof. unfold is_low. rewrite andb_false_iff, !N.leb_gt. tauto. Qed.

Lemma units_of_pair (u l : N) :
  is_high u = true → is_low l = true →
  units_of_cp (0x10000 + (u - 0xD800) * 1024 + (l - 0xDC00)) = [u; l].
Proof.
  rewrite is_high_spec, is_low_spec. intros Hu Hl. unfold units_of_cp.
  rewrite (proj2 (N.ltb_ge _ _)) by lia. f_equal; [|f_equal]; lia.
Qed.

Lemma units_of_unit (u : N) : u < 0x10000 → units_of_cp u = [u].
Proof. intros. unfold units_of_cp. by rewrite (proj2 (N.ltb_lt _ _)). Qed.

(** Decoding undoes encoding on every well-formed string. *)
Lemma utf8_decode_encode (s : jsstring) :
  well_formed s = true → decode (encode s) = s.
Proof.
  remember (length s) as n eqn:Hn. revert s Hn.
  induction n as [n IH] using lt_wf_ind. intros [|u rest] Hn Hwf; [done|].
  cbn [encode well_formed] in *.
  destruct (is_high u) eqn:Hh.
  - destruct rest as [|l rest']; [done|].
    apply andb_true_iff in Hwf as [Hl Hwf]. rewrite Hl.
    rewrite decode_encode_cp.
    + rewrite units_of_pair by done. cbn [app]. do 2 f_equal.
      apply (IH (length rest')); [cbn [length] in Hn; lia|done..].
    + apply is_high_spec in Hh. apply is_low_spec in Hl. unfold scalar. lia.
  - destruct (is_low u) eqn:Hl; [done|].
    apply andb_true_iff in Hwf as [Hu Hwf]. apply N.ltb_lt in Hu.
    rewrite decode_encode_cp.
    + rewrite units_of_unit by done. cbn [app]. f_equal.
      apply (IH (length rest)); [cbn [length] in Hn; lia|done..].
    + apply is_high_false in Hh. apply is_low_false in Hl. unfold scalar. lia.
Qed.

Lemma encode_cp_length (c : N) : (1 <= length (encode_cp c) <= 4)%nat.
Proof.
  unfold encode_cp.
  destruct (c <? 0x80); [|destruct (c <? 0x800); [|destruct (c <? 0x10000)]];
    cbn [length]; lia.
Qed.

(** A string has at least as many UTF-8 bytes as code units ... *)
Lemma utf8_encode_length_ge (s : jsstring) :
  (length s <= length (encode s))%nat.
Proof.
  remember (length s) as n eqn:Hn. revert s Hn.
  induction n as [n IH] using lt_wf_ind. intros [|u rest] ->; [done|].
  assert (Hrest : (length rest <= length (encode rest))%nat)
    by (apply (IH (length rest)); [cbn [length]; lia|done]).
  pose proof (encode_cp_length replacement).
  pose proof (encode_cp_length u).
  cbn [encode]. destruct (is_high u).
  - destruct rest as [|l rest']; [cbn [length]; lia|].
    destruct (is_low l); rewrite length_app; [|cbn [length] in *; lia].
    assert ((length rest' <= length (encode rest'))%nat)
      by (apply (IH (length rest')); [cbn [length]; lia|done]).
    assert (length (encode_cp (0x10000 + (u - 0xD800) * 1024 + (l - 0xDC00)))
            = 4%nat) as ->.
    { unfold encode_cp. by rewrite !(proj2 (N.ltb_ge _ _)) by lia. }
    cbn [length]. lia.
  - destruct (is_low u); rewrite length_app; cbn [length]; lia.
Qed.

(** ... and the empty string is the only one without bytes. *)
Lemma utf8_encode_nil (s : jsstring) : encode s = [] → s = [].
Proof.
  intros H. pose proof (utf8_encode_length_ge s) as Hlen.
  rewrite H in Hlen. destruct s; [done|cbn [length] in Hlen; lia].
Qed.

(** A string with as many UTF-8 bytes as code units is ASCII. *)
Lemma utf8_same_length_ascii (s : jsstring) :
  length (encode s) = length s → Forall (λ u, u < 128) s.
Proof.
  induction s as [|u rest IH]; [done|]. intros Hlen.
  pose proof (utf8_encode_length_ge rest) as Hrest.
  assert (Hrepl : length (encode_cp replacement) = 3%nat) by reflexivity.
  cbn [encode] in Hlen. destruct (is_high u).
  { destruct rest as [|l rest']; [by rewrite Hrepl in Hlen|].
    destruct (is_low l); rewrite length_app in Hlen.
    - pose proof (utf8_encode_length_ge rest').
      assert (length (encode_cp (0x10000 + (u - 0xD800) * 1024 + (l - 0xDC00)))
              = 4%nat) as Hfour.
      { unfold encode_cp. by rewrite !(proj2 (N.ltb_ge _ _)) by lia. }
      rewrite Hfour in Hlen. cbn [length] in Hlen. lia.
    - rewrite Hrepl in Hlen. cbn [length] in Hlen, Hrest. lia. }
  destruct (is_low u); rewrite length_app in Hlen.
  { rewrite Hrepl in Hlen. cbn [length] in Hlen. lia. }
  pose proof (encode_cp_length u). cbn [length] in Hlen.
  constructor; [|apply IH; lia].
  assert (Hone : length (encode_cp u) = 1%nat) by lia.
  unfold encode_cp in Hone. destruct (N.ltb_spec u 0x80); [done|].
  destruct (u <? 0x800); [done|]. by destruct (u <? 0x10000).
Qed.

End utf8_facts.

(** ** Facts about the cipher *)

Section encryption_facts.
Import Encryption.
Context {C : Crypto} {L : CryptoLaws}.

Lemma randomBytes_length (n : nat) (g : Rng) : length (randomBytes n g).1 = n.
Proof. unfold randomBytes. cbn [fst]. by rewrite length_map, length_seq. Qed.

Lemma drawn_salt_length (g : Rng) : length (drawn_salt g) = 32%nat.
Proof. apply randomBytes_length. Qed.

Lemma drawn_iv_length (g : Rng) : length (drawn_iv g) = 16%nat.
Proof. apply randomBytes_length. Qed.

Lemma derived_key_length (masterKey : MasterKey) (salt : bytes) :
  length (derived_key masterKey salt) = 32%nat.
Proof. apply pbkdf2_length. Qed.

Lemma validateMasterKey_ok (masterKey : MasterKey) :
  length (keyBuffer masterKey) = 32%nat → validateMasterKey masterKey = Ok tt.
Proof. unfold validateMasterKey. by intros ->. Qed.

Lemma validateMasterKey_throw (masterKey : MasterKey) :
  length (keyBuffer masterKey) ≠ 32%nat →
  validateMasterKey masterKey
  = Throw (Master_key_not_32_bytes (length (keyBuffer masterKey))).
Proof.
  unfold validateMasterKey, keyLength. intros Hne.
  by rewrite (proj2 (Nat.eqb_neq _ _) Hne).
Qed.

Lemma falsy_false (s : jsstring) : s ≠ [] → falsy s = false.
Proof. by destruct s. Qed.

(** What [encrypt] returns on valid input. *)
Lemma encrypt_eq (plaintext : jsstring) (masterKey : MasterKey) (g : Rng) :
  plaintext ≠ [] → length (keyBuffer masterKey) = 32%nat →
  encrypt plaintext masterKey g
  = (Ok (Base64.encode (drawn_salt g ++ drawn_iv g
                        ++ (sealed plaintext masterKey g).2
                        ++ (sealed plaintext masterKey g).1)),
     after_encrypt g).
Proof.
  intros Hp Hk. unfold encrypt.
  by rewrite falsy_false, validateMasterKey_ok.
Qed.

Lemma components_app (salt iv tag encrypted : bytes) :
  length salt = 32%nat → length iv = 16%nat → length tag = 16%nat →
  components (salt ++ iv ++ tag ++ encrypted) = (salt, iv, tag, encrypted).
Proof.
  intros Hs Hi Ht.
  unfold components, subarray, subarray_from, saltLength, ivLength, tagLength.
  cbn [Nat.add Nat.sub]. rewrite drop_0.
  rewrite (take_app_length' salt), (drop_app_length' salt) by done.
  rewrite (take_app_length' iv) by done.
  rewrite (drop_app_add' salt _ 32 16), (drop_app_length' iv) by done.
  rewrite (take_app_length' tag) by done.
  rewrite (drop_app_add' salt _ 32 32), (drop_app_add' iv _ 16 16) by done.
  by rewrite (drop_app_length' tag).
Qed.

Lemma sealed_tag_length (plaintext : jsstring) (masterKey : MasterKey) (g : Rng) :
  length (sealed plaintext masterKey g).2 = 16%nat.
Proof. apply gcm_tag_length, derived_key_length. Qed.

Lemma sealed_data_length (plaintext : jsstring) (masterKey : MasterKey) (g : Rng) :
  length (sealed plaintext masterKey g).1 = length (Utf8.encode plaintext).
Proof. apply gcm_data_length, derived_key_length. Qed.

(** [decrypt] never touches the random source: the salt is given. *)
Lemma decrypt_rng (ciphertext : jsstring) (masterKey : MasterKey) (g : Rng) :
  (decrypt ciphertext masterKey g).2 = g.
Proof.
  unfold decrypt, decrypt_body.
  destruct (falsy ciphertext); [done|].
  destruct (validateMasterKey masterKey); [|done].
  destruct (_ <? _)%nat; [done|].
  destruct (components _) as [[[salt iv] tag] encrypted]. cbn.
  by destruct (gcm_decrypt _ _ _ _).
Qed.

(** What [decrypt] does with a blob whose bytes are long enough. *)
Lemma decrypt_eq (ciphertext : jsstring) (masterKey : MasterKey) (g : Rng)
    (salt iv tag encrypted : bytes) :
  ciphertext ≠ [] → length (keyBuffer masterKey) = 32%nat →
  length salt = 32%nat → length iv = 16%nat → length tag = 16%nat →
  Base64.decode ciphertext = salt ++ iv ++ tag ++ encrypted →
  decrypt ciphertext masterKey g
  = match gcm_decrypt (derived_key masterKey salt) iv tag encrypted with
    | Some decrypted => (Ok (Utf8.decode decrypted), g)
    | None => (Throw (Decryption_failed Unable_to_authenticate_data), g)
    end.
Proof.
  intros Hc Hk Hs Hi Ht Hdec. unfold decrypt, decrypt_body.
  rewrite falsy_false, validateMasterKey_ok, Hdec by done.
  rewrite components_app by done.
  rewrite (proj2 (Nat.ltb_ge _ _)).
  - cbn. fold (derived_key masterKey salt). by destruct (gcm_decrypt _ _ _ _).
  - rewrite !length_app, Hs, Hi, Ht.
    unfold saltLength, ivLength, tagLength. lia.
Qed.

(** A blob of fewer than 64 bytes. *)
Lemma decrypt_short_blob (blob : jsstring) (masterKey : MasterKey) (g : Rng) :
  blob ≠ [] → length (keyBuffer masterKey) = 32%nat →
  (length (Base64.decode blob) < 64)%nat →
  decrypt blob masterKey g
  = (Throw (Decryption_failed Invalid_ciphertext_too_short), g).
Proof.
  intros Hb Hk Hlen. unfold decrypt, decrypt_body.
  rewrite falsy_false, validateMasterKey_ok by done.
  change (saltLength + ivLength + tagLength)%nat with 64%nat.
  by rewrite (proj2 (Nat.ltb_lt _ _) Hlen).
Qed.

(** The four parts of a buffer of 64 bytes or more are cut at 32, 48 and
    64, and together they are the buffer. *)
Lemma components_offsets (combined : bytes) :
  components combined
  = (take 32 combined, take 16 (drop 32 combined),
     take 16 (drop 48 combined), drop 64 combined).
Proof.
  unfold components, subarray, subarray_from, saltLength, ivLength, tagLength.
  cbn [Nat.add Nat.sub]. by rewrite drop_0.
Qed.

Lemma components_split (combined : bytes) :
  (64 <= length combined)%nat →
  ∃ salt iv tag encrypted,
    components combined = (salt, iv, tag, encrypted)
    ∧ combined = salt ++ iv ++ tag ++ encrypted
    ∧ length salt = 32%nat ∧ length iv = 16%nat ∧ length tag = 16%nat.
Proof.
  intros Hlen. rewrite components_offsets. do 4 eexists.
  split; [done|]. rewrite !length_take, !length_drop.
  split; [|lia].
  rewrite <- (take_drop 32 combined) at 1. f_equal.
  rewrite <- (take_drop 16 (drop 32 combined)) at 1. f_equal.
  rewrite drop_drop. cbn [Nat.add].
  rewrite <- (take_drop 16 (drop 48 combined)) at 1. f_equal.
  by rewrite drop_drop.
Qed.

(** Two buffers with the same four parts. *)
Lemma parts_inj (salt iv tag encrypted salt' iv' tag' encrypted' : bytes) :
  length salt = 32%nat → length iv = 16%nat → length tag = 16%nat →
  length salt' = 32%nat → length iv' = 16%nat → length tag' = 16%nat →
  salt ++ iv ++ tag ++ encrypted = salt' ++ iv' ++ tag' ++ encrypted' →
  salt = salt' ∧ iv = iv' ∧ tag = tag' ∧ encrypted = encrypted'.
Proof.
  intros Hs Hi Ht Hs' Hi' Ht' E.
  apply app_inj_1 in E as [-> E]; [|congruence].
  apply app_inj_1 in E as [-> E]; [|congruence].
  apply app_inj_1 in E as [-> E]; [|congruence].
  done.
Qed.

Lemma base64_encode_nonempty (b : bytes) : b ≠ [] → Base64.encode b ≠ [].
Proof. by destruct b as [|x [|y [|z l]]]. Qed.

End encryption_facts.

(** ** The stand-in cipher meets the contract *)

Lemma toy_laws : @CryptoLaws toy_crypto.
Proof.
  split; cbn [pbkdf2Sync gcm_encrypt gcm_decrypt toy_crypto].
  - intros pw salt iterations keylen digest. unfold toy_pbkdf2.
    rewrite length_take, !length_app, length_replicate. lia.
  - intros key iv data Hk. unfold toy_seal. cbn [snd].
    rewrite length_take. lia.
  - intros key iv data _. unfold toy_seal. cbn [fst]. apply length_rev.
  - intros key iv data _. unfold toy_seal, toy_open. cbn [fst snd].
    rewrite bool_decide_eq_true_2 by done. by rewrite rev_involutive.
Qed.

Lemma toy_authentic : @GcmAuthentic toy_crypto.
Proof.
  split; cbn [gcm_encrypt gcm_decrypt toy_crypto]; unfold toy_seal, toy_open.
  - intros key iv tag data opened _ _ Hopen.
    case_bool_decide as Heq; [|done]. subst tag.
    injection Hopen as <-. by rewrite rev_involutive.
  - intros key iv opened opened' _ E. cbn [fst] in E.
    apply (f_equal (@rev byte)) in E. by rewrite !rev_involutive in E.
Qed.

(** ** The cipher: round trip, wire format, blob length *)

Section cipher_theorems.
Import Encryption.
Context {C : Crypto} {L : CryptoLaws}.

Lemma decrypt_encrypt_data (plaintext : jsstring) (masterKey : MasterKey)
    (g g' : Rng) :
  plaintext ≠ [] → length (keyBuffer masterKey) = 32%nat →
  ∃ blob, (encrypt plaintext masterKey g).1 = Ok blob
    ∧ (decrypt blob masterKey g').1
      = Ok (Utf8.decode (Utf8.encode plaintext)).
Proof.
  intros Hp Hk. rewrite encrypt_eq by done. eexists. split; [done|].
  erewrite decrypt_eq;
    [|apply base64_encode_nonempty|done|apply drawn_salt_length
     |apply drawn_iv_length|apply sealed_tag_length
     |apply sextets_encode_decode].
  - unfold sealed. by rewrite gcm_decrypt_encrypt by apply derived_key_length.
  - pose proof (drawn_salt_length g). by destruct (drawn_salt g).
Qed.

(** C1, as amended: for every master key that normalizes to 32 bytes and
    every non-empty plaintext without an unpaired surrogate,
    [decrypt(encrypt(p, k), k)] returns [p]. *)
Theorem decrypt_encrypt_well_formed (plaintext : jsstring)
    (masterKey : MasterKey) (g g' : Rng) :
  plaintext ≠ [] → Utf8.well_formed plaintext = true →
  length (keyBuffer masterKey) = 32%nat →
  ∃ blob, (encrypt plaintext masterKey g).1 = Ok blob
    ∧ (decrypt blob masterKey g').1 = Ok plaintext.
Proof.
  intros Hp Hwf Hk.
  destruct (decrypt_encrypt_data plaintext masterKey g g' Hp Hk)
    as (blob & Henc & Hdec).
  exists blob. by rewrite Hdec, utf8_decode_encode.
Qed.

(** A high surrogate on its own comes back as U+FFFD. *)
Lemma decrypt_encrypt_lone_surrogate (masterKey : MasterKey) (g g' : Rng) :
  length (keyBuffer masterKey) = 32%nat →
  ∃ blob, (encrypt [0xD800] masterKey g).1 = Ok blob
    ∧ (decrypt blob masterKey g').1 = Ok [0xFFFD].
Proof. intros Hk. by apply decrypt_encrypt_data. Qed.

End cipher_theorems.

(** C1, as stated, fails: the one-unit string [\uD800] is a non-empty
    plaintext, and what [decrypt] returns for its blob is [\uFFFD]. *)
Lemma decrypt_encrypt_not_every_string :
  ¬ (∀ (C : Crypto) (L : @CryptoLaws C) (plaintext : jsstring)
       (masterKey : MasterKey) (g g' : Rng),
       plaintext ≠ [] →
       length (Encryption.keyBuffer masterKey) = 32%nat →
       ∃ blob, (Encryption.encrypt plaintext masterKey g).1 = Ok blob
         ∧ (Encryption.decrypt blob masterKey g').1 = Ok plaintext).
Proof.
  intros Hall.
  destruct (Hall toy_crypto toy_laws [0xD800] sample_key stuck_rng stuck_rng)
    as (blob & Henc & Hdec); [done..|].
  destruct (decrypt_encrypt_lone_surrogate (C:=toy_crypto) (L:=toy_laws)
              sample_key stuck_rng stuck_rng) as (blob' & Henc' & Hdec'); [done|].
  rewrite Henc in Henc'. simplify_eq.
  rewrite Hdec in Hdec'. discriminate Hdec'.
Qed.

Lemma decrypt_encrypt_well_formed_witness :
  ∃ blob, (Encryption.encrypt (C:=toy_crypto) (lit "AIzaSyA-key_0123")
             sample_key counting_rng).1 = Ok blob
    ∧ (Encryption.decrypt (C:=toy_crypto) blob sample_key stuck_rng).1
      = Ok (lit "AIzaSyA-key_0123").
Proof.
  apply (decrypt_encrypt_well_formed (C:=toy_crypto) (L:=toy_laws));
    [done|reflexivity|reflexivity].
Defined.

(** ** The wire format *)

Lemma b64_char_alphabet (i : N) :
  i < 64 → Base64.b64_char i ∈ Base64.alphabet.
Proof.
  intros Hi. unfold Base64.b64_char. apply list_elem_of_In, nth_In.
  change (length Base64.alphabet) with 64%nat. lia.
Qed.

Lemma encode_alphabet (b : bytes) :
  Forall (λ c, c ∈ Base64.alphabet ∨ c = Base64.pad) (Base64.encode b).
Proof.
  induction b as [|x|x y|x y z l IH] using list_ind3; cbn [Base64.encode].
  - constructor.
  - pose proof (byte_to_N_lt x).
    repeat (constructor; [first [by right | left; apply b64_char_alphabet; lia]|]).
    constructor.
  - pose proof (byte_to_N_lt x). pose proof (byte_to_N_lt y).
    repeat (constructor; [first [by right | left; apply b64_char_alphabet; lia]|]).
    constructor.
  - pose proof (byte_to_N_lt x). pose proof (byte_to_N_lt y).
    pose proof (byte_to_N_lt z).
    repeat (constructor; [left; apply b64_char_alphabet; lia|]).
    exact IH.
Qed.

Section wire_format.
Import Encryption.
Context {C : Crypto} {L : CryptoLaws}.

(** C7: the string returned by [encrypt] is base64 text, it decodes to
    salt (32 bytes), iv (16 bytes), tag (16 bytes) and the encrypted data
    in that order; [decrypt] cuts the decoded bytes of any text at 32, 48
    and 64 and gives the cipher the key derived from the first part, the
    second part as IV, the third as tag and the rest as data, so that from
    the blob of [encrypt] it takes exactly the four parts written there. *)
Theorem encrypt_wire_format (plaintext : jsstring) (masterKey : MasterKey)
    (g : Rng) :
  plaintext ≠ [] → length (keyBuffer masterKey) = 32%nat →
  let salt := drawn_salt g in
  let iv := drawn_iv g in
  let tag := (sealed plaintext masterKey g).2 in
  let encrypted := (sealed plaintext masterKey g).1 in
  ∃ blob, (encrypt plaintext masterKey g).1 = Ok blob
    ∧ blob = Base64.encode (salt ++ iv ++ tag ++ encrypted)
    ∧ Forall (λ c, c ∈ Base64.alphabet ∨ c = Base64.pad) blob
    ∧ Base64.decode blob = salt ++ iv ++ tag ++ encrypted
    ∧ length salt = 32%nat ∧ length iv = 16%nat ∧ length tag = 16%nat
    ∧ components (Base64.decode blob) = (salt, iv, tag, encrypted)
    ∧ (∀ key g', length (keyBuffer key) = 32%nat →
         decrypt blob key g'
         = match gcm_decrypt (derived_key key salt) iv tag encrypted with
           | Some decrypted => (Ok (Utf8.decode decrypted), g')
           | None => (Throw (Decryption_failed Unable_to_authenticate_data), g')
           end)
    ∧ (∀ text key g', text ≠ [] → length (keyBuffer key) = 32%nat →
         let combined := Base64.decode text in
         (64 <= length combined)%nat →
         decrypt text key g'
         = match gcm_decrypt (derived_key key (take 32 combined))
                   (take 16 (drop 32 combined)) (take 16 (drop 48 combined))
                   (drop 64 combined) with
           | Some decrypted => (Ok (Utf8.decode decrypted), g')
           | None => (Throw (Decryption_failed Unable_to_authenticate_data), g')
           end).
Proof.
  intros Hp Hk salt iv tag encrypted. rewrite encrypt_eq by done.
  eexists. split; [done|]. split; [done|].
  rewrite sextets_encode_decode.
  pose proof (drawn_salt_length g) as Hs. pose proof (drawn_iv_length g).
  pose proof (sealed_tag_length plaintext masterKey g).
  repeat split; try done.
  - apply encode_alphabet.
  - by apply components_app.
  - intros key g' Hkey.
    apply decrypt_eq; [|done..|apply sextets_encode_decode].
    apply base64_encode_nonempty. intros E. apply (f_equal length) in E.
    rewrite length_app, Hs in E. done.
  - intros text key g' Ht Hkey combined Hlen. unfold decrypt, decrypt_body.
    rewrite falsy_false, validateMasterKey_ok by done.
    change (saltLength + ivLength + tagLength)%nat with 64%nat.
    fold combined. rewrite (proj2 (Nat.ltb_ge _ _) Hlen), components_offsets.
    cbn. fold (derived_key key (take 32 combined)).
    by destruct (gcm_decrypt _ _ _ _).
Qed.

(** C10: the blob decodes to exactly 64 + n bytes, n being the number of
    UTF-8 bytes of the plaintext, so n can be read off the blob. *)
Theorem encrypt_blob_length (plaintext : jsstring) (masterKey : MasterKey)
    (g : Rng) :
  plaintext ≠ [] → length (keyBuffer masterKey) = 32%nat →
  ∃ blob, (encrypt plaintext masterKey g).1 = Ok blob
    ∧ length (Base64.decode blob)
      = (64 + length (Utf8.encode plaintext))%nat
    ∧ length (Utf8.encode plaintext)
      = (length (Base64.decode blob) - 64)%nat.
Proof.
  intros Hp Hk. rewrite encrypt_eq by done. eexists. split; [done|].
  rewrite sextets_encode_decode, !length_app.
  rewrite drawn_salt_length, drawn_iv_length, sealed_tag_length,
    sealed_data_length.
  lia.
Qed.

(** The bytes of the blob, and their number modulo 3. *)
Lemma encrypt_blob_bytes (plaintext : jsstring) (masterKey : MasterKey)
    (g : Rng) :
  plaintext ≠ [] → length (keyBuffer masterKey) = 32%nat →
  ∃ blob, (encrypt plaintext masterKey g).1 = Ok blob
    ∧ blob = Base64.encode (drawn_salt g ++ drawn_iv g
                            ++ (sealed plaintext masterKey g).2
                            ++ (sealed plaintext masterKey g).1)
    ∧ ((length (Utf8.encode plaintext) mod 3 = 1)%nat →
       (length (drawn_salt g ++ drawn_iv g
                ++ (sealed plaintext masterKey g).2
                ++ (sealed plaintext masterKey g).1) mod 3 = 2)%nat).
Proof.
  intros Hp Hk. rewrite encrypt_eq by done. eexists. split; [done|].
  split; [done|]. rewrite !length_app.
  rewrite drawn_salt_length, drawn_iv_length, sealed_tag_length,
    sealed_data_length.
  lia.
Qed.

End wire_format.

Lemma encrypt_wire_format_witness :
  let salt := drawn_salt counting_rng in
  let iv := drawn_iv counting_rng in
  let tag := (sealed (C:=toy_crypto) (lit "AIzaSyA-key_0123") sample_key
                counting_rng).2 in
  let encrypted := (sealed (C:=toy_crypto) (lit "AIzaSyA-key_0123") sample_key
                      counting_rng).1 in
  ∃ blob, (Encryption.encrypt (C:=toy_crypto) (lit "AIzaSyA-key_0123")
             sample_key counting_rng).1 = Ok blob
    ∧ blob = Base64.encode (salt ++ iv ++ tag ++ encrypted)
    ∧ Forall (λ c, c ∈ Base64.alphabet ∨ c = Base64.pad) blob
    ∧ Base64.decode blob = salt ++ iv ++ tag ++ encrypted
    ∧ length salt = 32%nat ∧ length iv = 16%nat ∧ length tag = 16%nat
    ∧ Encryption.components (Base64.decode blob) = (salt, iv, tag, encrypted)
    ∧ Encryption.decrypt (C:=toy_crypto) blob sample_key stuck_rng
      = match gcm_decrypt (Crypto:=toy_crypto)
                (derived_key (C:=toy_crypto) sample_key salt) iv tag encrypted
        with
        | Some decrypted => (Ok (Utf8.decode decrypted), stuck_rng)
        | None =>
            (Throw (Decryption_failed Unable_to_authenticate_data), stuck_rng)
        end.
Proof.
  destruct (encrypt_wire_format (C:=toy_crypto) (L:=toy_laws)
              (lit "AIzaSyA-key_0123") sample_key counting_rng)
    as (blob & Henc & Hblob & Hascii & Hdec & Hs & Hi & Ht & Hparts
        & Hopen & _); [done|reflexivity|].
  exists blob. repeat split; try done.
  apply Hopen. reflexivity.
Defined.

Lemma encrypt_blob_length_witness :
  ∃ blob, (Encryption.encrypt (C:=toy_crypto) (lit "AIzaSyA-key_0123")
             sample_key counting_rng).1 = Ok blob
    ∧ length (Base64.decode blob)
      = (64 + length (Utf8.encode (lit "AIzaSyA-key_0123")))%nat
    ∧ length (Utf8.encode (lit "AIzaSyA-key_0123"))
      = (length (Base64.decode blob) - 64)%nat.
Proof.
  apply (encrypt_blob_length (C:=toy_crypto) (L:=toy_laws));
    [done|reflexivity].
Defined.

(** The sample blob has 64 + 16 = 80 bytes. *)
Example sample_blob_length :
  match (Encryption.encrypt (C:=toy_crypto) (lit "AIzaSyA-key_0123")
           sample_key counting_rng).1 with
  | Ok blob => length (Base64.decode blob) = 80%nat
  | Throw _ => False
  end.
Proof. vm_compute. reflexivity. Qed.

(** ** What [decrypt] rejects *)

Section nudge_facts.
Import Base64.

Lemma nudge_cons (c : N) (rest : jsstring) :
  (2 <= length rest)%nat → nudge (c :: rest) = c :: nudge rest.
Proof. destruct rest as [|c1 [|c2 rest]]; cbn [length]; [lia..|done]. Qed.

Lemma nudge_length (s : jsstring) : length (nudge s) = length s.
Proof.
  induction s as [|c [|c1 [|c2 rest]] IH]; [done..|].
  rewrite nudge_cons by (cbn [length]; lia). cbn [length] in *. by rewrite IH.
Qed.

Lemma encode_length_ge (b : bytes) : b ≠ [] → (4 <= length (encode b))%nat.
Proof. destruct b as [|x [|y [|z l]]]; [done|cbn [encode length]; lia..]. Qed.

Lemma next_char_b64 (i : N) : i < 63 → next_char (b64_char i) = b64_char (i + 1).
Proof. intros. unfold next_char. by rewrite unbase64_b64_char by lia. Qed.

Lemma b64_char_inj (i j : N) : i < 64 → j < 64 → b64_char i = b64_char j → i = j.
Proof.
  intros Hi Hj E. apply (f_equal unbase64) in E.
  rewrite !unbase64_b64_char in E by done. by injection E.
Qed.

(** In a buffer of 3k+2 bytes the nudged text is another text of the
    same length that decodes to the same bytes. *)
Lemma nudge_encode (b : bytes) :
  (length b mod 3 = 2)%nat →
  nudge (encode b) ≠ encode b ∧ decode (nudge (encode b)) = b.
Proof.
  induction b as [|x|x y|x y z l IH] using list_ind3; intros Hlen.
  - done.
  - done.
  - clear Hlen. pose proof (byte_to_N_lt x). pose proof (byte_to_N_lt y).
    cbn [encode nudge]. rewrite next_char_b64 by lia. split.
    + intros E. injection E as E. apply b64_char_inj in E; lia.
    + unfold decode. rewrite !sextets_b64_char by lia.
      rewrite sextets_pad. cbn [unpack].
      f_equal; [|f_equal]; apply byte_of_N_inj_small; lia.
  - assert (Hl : (length l mod 3 = 2)%nat).
    { cbn [length] in Hlen. lia. }
    assert (l ≠ []) by (intros ->; done).
    pose proof (encode_length_ge l).
    destruct (IH Hl) as [Hne Hdec].
    pose proof (byte_to_N_lt x). pose proof (byte_to_N_lt y).
    pose proof (byte_to_N_lt z).
    cbn [encode]. rewrite !nudge_cons by (cbn [length]; lia). split.
    + intros E. by injection E.
    + unfold decode in *.
      rewrite !sextets_b64_char by lia. cbn [unpack]. rewrite Hdec.
      f_equal; [|f_equal; [|f_equal]]; apply byte_of_N_inj_small; lia.
Qed.

(** Only the low byte of each code unit is read. *)
Lemma sextets_low_bytes (s s' : jsstring) :
  map (λ c, c mod 256) s = map (λ c, c mod 256) s' → sextets s = sextets s'.
Proof.
  revert s'. induction s as [|c s IH]; intros [|c' s'] E; try done.
  cbn [map] in E. injection E as Ec Es.
  cbn [sextets]. cbv zeta. by rewrite Ec, (IH s' Es).
Qed.

Lemma decode_low_bytes (s s' : jsstring) :
  map (λ c, c mod 256) s = map (λ c, c mod 256) s' → decode s = decode s'.
Proof. intros E. unfold decode. by rewrite (sextets_low_bytes s s' E). Qed.

End nudge_facts.

Section decrypt_theorems.
Import Encryption.
Context {C : Crypto} {L : CryptoLaws} {A : GcmAuthentic}.

(** [decrypt] sees a blob only through its decoded bytes. *)
Lemma decrypt_same_bytes (blob blob' : jsstring) (masterKey : MasterKey)
    (g : Rng) :
  blob ≠ [] → blob' ≠ [] → Base64.decode blob' = Base64.decode blob →
  decrypt blob' masterKey g = decrypt blob masterKey g.
Proof.
  intros Hb Hb' Hdec. unfold decrypt, decrypt_body.
  by rewrite !falsy_false, Hdec by done.
Qed.

(** Whatever the cipher: when the plaintext has 3k+1 bytes, the blob ends
    with one [=], and the nudged blob is accepted like the original. *)
Lemma nudged_blob_accepted (plaintext : jsstring) (masterKey : MasterKey)
    (g g' : Rng) :
  plaintext ≠ [] → length (keyBuffer masterKey) = 32%nat →
  (length (Utf8.encode plaintext) mod 3 = 1)%nat →
  ∃ blob, (encrypt plaintext masterKey g).1 = Ok blob
    ∧ nudge blob ≠ blob ∧ length (nudge blob) = length blob
    ∧ (decrypt (nudge blob) masterKey g').1
      = Ok (Utf8.decode (Utf8.encode plaintext)).
Proof.
  intros Hp Hk Hlen.
  destruct (decrypt_encrypt_data plaintext masterKey g g' Hp Hk)
    as (blob & Henc & Hdec).
  exists blob. split; [done|].
  destruct (encrypt_blob_bytes plaintext masterKey g Hp Hk)
    as (blob0 & Henc0 & Hblob & Hbytes).
  rewrite Henc in Henc0. injection Henc0 as <-. specialize (Hbytes Hlen).
  destruct (nudge_encode _ Hbytes) as [Hne Hsame].
  remember (drawn_salt g ++ drawn_iv g ++ (sealed plaintext masterKey g).2
            ++ (sealed plaintext masterKey g).1) as bs eqn:Hbs.
  assert (Hnil : bs ≠ []) by (intros E; by rewrite E in Hbytes).
  pose proof (encode_length_ge bs Hnil) as Hfour. subst blob.
  split; [done|]. split; [apply nudge_length|].
  rewrite <- Hdec. f_equal. apply decrypt_same_bytes.
  - by apply base64_encode_nonempty.
  - intros E. apply (f_equal length) in E. rewrite nudge_length in E.
    cbn [length] in E. lia.
  - by rewrite Hsame, sextets_encode_decode.
Qed.

(** What [decrypt] accepts: the envelopes made with its master key. *)
Lemma decrypt_accepts_envelope (text : jsstring) (masterKey : MasterKey)
    (g : Rng) (salt iv opened : bytes) :
  text ≠ [] → length (keyBuffer masterKey) = 32%nat →
  length salt = 32%nat → length iv = 16%nat →
  Base64.decode text = envelope masterKey salt iv opened →
  decrypt text masterKey g = (Ok (Utf8.decode opened), g).
Proof.
  intros Ht Hk Hs Hi Hdec. unfold envelope in Hdec. cbv zeta in Hdec.
  rewrite (decrypt_eq _ _ _ _ _ _ _ Ht Hk Hs Hi
             (gcm_tag_length _ _ _ (derived_key_length _ _)) Hdec).
  by rewrite gcm_decrypt_encrypt by apply derived_key_length.
Qed.

Lemma decrypt_accepted_inv (text : jsstring) (masterKey : MasterKey)
    (g : Rng) (plaintext : jsstring) :
  text ≠ [] → length (keyBuffer masterKey) = 32%nat →
  (decrypt text masterKey g).1 = Ok plaintext →
  ∃ salt iv opened, length salt = 32%nat ∧ length iv = 16%nat
    ∧ Base64.decode text = envelope masterKey salt iv opened
    ∧ plaintext = Utf8.decode opened.
Proof.
  intros Ht Hk Hok.
  destruct (Nat.lt_ge_cases (length (Base64.decode text)) 64) as [Hlen|Hlen].
  { by rewrite decrypt_short_blob in Hok. }
  destruct (components_split _ Hlen)
    as (salt & iv & tag & encrypted & _ & Hdec & Hs & Hi & Htag).
  rewrite (decrypt_eq _ _ _ _ _ _ _ Ht Hk Hs Hi Htag Hdec) in Hok.
  destruct (gcm_decrypt _ _ _ _) as [opened|] eqn:Hopen; [|done].
  injection Hok as <-.
  apply gcm_decrypt_sound in Hopen; [|apply derived_key_length|done].
  exists salt, iv, opened. unfold envelope. by rewrite Hopen.
Qed.

(** What it throws otherwise. *)
Lemma decrypt_throws_inv (text : jsstring) (masterKey : MasterKey)
    (g : Rng) (e : error) :
  text ≠ [] → length (keyBuffer masterKey) = 32%nat →
  (decrypt text masterKey g).1 = Throw e →
  e = Decryption_failed
        (if (length (Base64.decode text) <? 64)%nat
         then Invalid_ciphertext_too_short
         else Unable_to_authenticate_data).
Proof.
  intros Ht Hk Hthrow.
  destruct (Nat.ltb_spec (length (Base64.decode text)) 64) as [Hlen|Hlen].
  { rewrite decrypt_short_blob in Hthrow by done. by injection Hthrow. }
  destruct (components_split _ Hlen)
    as (salt & iv & tag & encrypted & _ & Hdec & Hs & Hi & Htag).
  rewrite (decrypt_eq _ _ _ _ _ _ _ Ht Hk Hs Hi Htag Hdec) in Hthrow.
  destruct (gcm_decrypt _ _ _ _); [done|]. by injection Hthrow.
Qed.

Lemma derived_key_same (k1 k2 : MasterKey) (salt : bytes) :
  keyBuffer k1 = keyBuffer k2 → derived_key k1 salt = derived_key k2 salt.
Proof. unfold derived_key. by intros ->. Qed.


(** The exception for changed bytes is not empty: the blob of another
    encryption under the same master key has other bytes and opens. *)
Lemma other_blob_accepted (p p' : jsstring) (masterKey : MasterKey)
    (g g1 g2 : Rng) :
  p ≠ [] → p' ≠ [] → length (keyBuffer masterKey) = 32%nat →
  Utf8.encode p' ≠ Utf8.encode p →
  ∃ blob blob', (encrypt p masterKey g1).1 = Ok blob
    ∧ (encrypt p' masterKey g2).1 = Ok blob'
    ∧ Base64.decode blob' ≠ Base64.decode blob
    ∧ (decrypt blob' masterKey g).1 = Ok (Utf8.decode (Utf8.encode p')).
Proof.
  intros Hp Hp' Hk Hne.
  destruct (decrypt_encrypt_data p' masterKey g2 g Hp' Hk)
    as (blob' & Henc' & Hdec').
  exists (blob_of p masterKey g1), blob'.
  split; [by rewrite encrypt_eq|]. split; [done|]. split; [|done].
  rewrite encrypt_eq in Henc' by done. cbn [fst] in Henc'.
  assert (blob' = blob_of p' masterKey g2) as -> by (unfold blob_of; congruence).
  unfold blob_of. rewrite !sextets_encode_decode. intros E.
  apply parts_inj in E as (Es & Ei & _ & Edata);
    try apply drawn_salt_length; try apply drawn_iv_length;
    try apply sealed_tag_length.
  unfold sealed in Edata. rewrite Es, Ei in Edata.
  by apply gcm_data_inj in Edata; [|apply derived_key_length].
Qed.

End decrypt_theorems.


(** The altered blob, character by character. *)
Example nudged_sample_blob :
  match (Encryption.encrypt (C:=toy_crypto) (lit "AIzaSyA-key_0123")
           sample_key counting_rng).1 with
  | Ok blob =>
      drop 104 blob = lit "SUE=" ∧ drop 104 (nudge blob) = lit "SUF="
      ∧ take 104 (nudge blob) = take 104 blob
      ∧ (Encryption.decrypt (C:=toy_crypto) (nudge blob) sample_key
           stuck_rng).1 = Ok (lit "AIzaSyA-key_0123")
  | Throw _ => False
  end.
Proof. vm_compute. done. Qed.

(** So is the blob with 256 added to every code unit: the decoder reads
    the low bytes, which are those of the blob. *)
Example widened_sample_blob :
  match (Encryption.encrypt (C:=toy_crypto) (lit "AIzaSyA-key_0123")
           sample_key counting_rng).1 with
  | Ok blob =>
      let wide := map (λ c, c + 256) blob in
      Base64.decode wide = Base64.decode blob
      ∧ (Encryption.decrypt (C:=toy_crypto) wide sample_key stuck_rng).1
        = Ok (lit "AIzaSyA-key_0123")
  | Throw _ => False
  end.
Proof. vm_compute. done. Qed.


(** ** The matcher decides the language of a regular expression *)

Section regex_facts.
Import Regex.

Lemma nullable_spec (r : regex) : nullable r = true ↔ Lang r [].
Proof.
  induction r as [| |ranges|r1 IH1 r2 IH2|r1 IH1 r2 IH2|r IH]; cbn [nullable].
  - split; [done|inversion 1].
  - split; [constructor|done].
  - split; [done|inversion 1].
  - rewrite andb_true_iff, IH1, IH2. split.
    + intros [H1 H2]. by apply (Lang_Seq r1 r2 [] []).
    + inversion 1 as [| |? ? s1 s2 H1 H2 E1 E2| | | |]; subst.
      by apply app_eq_nil in E2 as [-> ->].
  - rewrite orb_true_iff, IH1, IH2. split.
    + intros [H1|H2]; [by apply Lang_Alt_l|by apply Lang_Alt_r].
    + inversion 1; subst; auto.
  - split; [constructor|done].
Qed.

(** A non-empty string of [r*] starts with a non-empty string of [r]. *)
Lemma lang_star_cons (r : regex) (c : N) (s : jsstring) :
  Lang (Star r) (c :: s) →
  ∃ s1 s2, s = s1 ++ s2 ∧ Lang r (c :: s1) ∧ Lang (Star r) s2.
Proof.
  remember (Star r) as r' eqn:Hr. remember (c :: s) as s' eqn:Hs.
  intros HL. revert c s Hr Hs.
  induction HL as [|ranges c0 Hc|r1 r2 s1 s2 H1 IH1 H2 IH2|r1 r2 s0 H1 IH1
                  |r1 r2 s0 H1 IH1|r0|r0 s1 s2 H1 _ H2 IH2];
    intros c s Hr Hs; try discriminate.
  injection Hr as ->. destruct s1 as [|c1 s1].
  - cbn [app] in Hs. by apply IH2.
  - cbn [app] in Hs. injection Hs as -> <-. by exists s1, s2.
Qed.

Lemma deriv_spec (c : N) (r : regex) (s : jsstring) :
  Lang (deriv c r) s ↔ Lang r (c :: s).
Proof.
  revert s.
  induction r as [| |ranges|r1 IH1 r2 IH2|r1 IH1 r2 IH2|r IH]; intros s;
    cbn [deriv].
  - split; inversion 1.
  - split; inversion 1.
  - destruct (in_class ranges c) eqn:Hc.
    + split.
      * inversion 1; subst. by constructor.
      * inversion 1; subst. constructor.
    + split; [inversion 1|]. inversion 1; subst. congruence.
  - assert (Hleft : ∀ s, Lang (Seq (deriv c r1) r2) s → Lang (Seq r1 r2) (c :: s)).
    { inversion 1 as [| |? ? s1 s2 H1 H2| | | |]; subst.
      apply IH1 in H1. by apply (Lang_Seq r1 r2 (c :: s1) s2). }
    destruct (nullable r1) eqn:Hn.
    + split.
      * inversion 1 as [| | |? ? ? HL|? ? ? HR| |]; subst; [by apply Hleft|].
        apply IH2 in HR. apply nullable_spec in Hn.
        by apply (Lang_Seq r1 r2 [] (c :: s)).
      * inversion 1 as [| |? ? s1 s2 H1 H2 E1 E2| | | |]; subst.
        destruct s1 as [|c1 s1]; cbn [app] in E2.
        -- subst s2. apply Lang_Alt_r. by apply IH2.
        -- injection E2 as -> <-. apply Lang_Alt_l.
           apply Lang_Seq; [by apply IH1|done].
    + split; [apply Hleft|].
      inversion 1 as [| |? ? s1 s2 H1 H2 E1 E2| | | |]; subst.
      destruct s1 as [|c1 s1]; cbn [app] in E2.
      * apply nullable_spec in H1. congruence.
      * injection E2 as -> <-. apply Lang_Seq; [by apply IH1|done].
  - split.
    + inversion 1; subst; [apply Lang_Alt_l; by apply IH1
                          |apply Lang_Alt_r; by apply IH2].
    + inversion 1; subst; [apply Lang_Alt_l; by apply IH1
                          |apply Lang_Alt_r; by apply IH2].
  - split.
    + inversion 1 as [| |? ? s1 s2 H1 H2| | | |]; subst.
      apply IH in H1. by apply (Lang_Star_app r (c :: s1) s2).
    + intros HL. apply lang_star_cons in HL as (s1 & s2 & -> & H1 & H2).
      apply Lang_Seq; [by apply IH|done].
Qed.

Lemma matches_spec (r : regex) (s : jsstring) : matches r s = true ↔ Lang r s.
Proof.
  revert r. induction s as [|c s IH]; intros r; cbn [matches].
  - apply nullable_spec.
  - rewrite IH. apply deriv_spec.
Qed.

End regex_facts.

(** ** The pattern of a Gemini key *)

Lemma forallb_pointwise {A} (f g : A → bool) (l : list A) :
  (∀ x, f x = g x) → forallb f l = forallb g l.
Proof. intros E. induction l as [|x l IH]; cbn [forallb]; congruence. Qed.

Section key_pattern.
Import Regex.

Lemma lang_class_inv (ranges : list (N * N)) (s : jsstring) :
  Lang (Class ranges) s ↔ ∃ c, s = [c] ∧ in_class ranges c = true.
Proof.
  split.
  - inversion 1; subst. by eexists.
  - intros (c & -> & Hc). by constructor.
Qed.

Lemma lang_seq_inv (r1 r2 : regex) (s : jsstring) :
  Lang (Seq r1 r2) s ↔ ∃ s1 s2, s = s1 ++ s2 ∧ Lang r1 s1 ∧ Lang r2 s2.
Proof.
  split.
  - inversion 1; subst. by eexists _, _.
  - intros (s1 & s2 & -> & H1 & H2). by constructor.
Qed.

Lemma lang_power_class (n : nat) (ranges : list (N * N)) (s : jsstring) :
  Lang (power n (Class ranges)) s
  ↔ length s = n ∧ forallb (in_class ranges) s = true.
Proof.
  revert s. induction n as [|n IH]; intros s; cbn [power].
  - split.
    + inversion 1. done.
    + intros [Hlen _]. destruct s; [constructor|done].
  - rewrite lang_seq_inv. split.
    + intros (s1 & s2 & -> & H1 & H2).
      apply lang_class_inv in H1 as (c & -> & Hc). apply IH in H2 as [<- H2].
      cbn [app length forallb]. by rewrite Hc, H2.
    + intros [Hlen Hall]. destruct s as [|c s]; [done|].
      cbn [forallb] in Hall. apply andb_true_iff in Hall as [Hc Hall].
      exists [c], s. split; [done|]. split; [by constructor|].
      apply IH. cbn [length] in Hlen. split; [lia|done].
Qed.

Lemma lang_star_class (ranges : list (N * N)) (s : jsstring) :
  Lang (Star (Class ranges)) s ↔ forallb (in_class ranges) s = true.
Proof.
  split.
  - remember (Star (Class ranges)) as r eqn:Hr. intros HL.
    induction HL as [|ranges' c0 Hc|r1 r2 s1 s2 H1 IH1 H2 IH2|r1 r2 s0 H1 IH1
                    |r1 r2 s0 H1 IH1|r0|r0 s1 s2 H1 _ H2 IH2];
      try discriminate; [done|].
    injection Hr as ->. apply lang_class_inv in H1 as (c & -> & Hc).
    cbn [app forallb]. rewrite Hc. by apply IH2.
  - induction s as [|c s IH]; cbn [forallb]; [constructor|].
    intros [Hc Hall]%andb_true_iff.
    apply (Lang_Star_app _ [c] s); [by constructor|by apply IH].
Qed.

Lemma lang_at_least_class (n : nat) (ranges : list (N * N)) (s : jsstring) :
  Lang (at_least n (Class ranges)) s
  ↔ (n <= length s)%nat ∧ forallb (in_class ranges) s = true.
Proof.
  unfold at_least. rewrite lang_seq_inv. split.
  - intros (s1 & s2 & -> & [Hlen H1]%lang_power_class & H2%lang_star_class).
    rewrite length_app, forallb_app, H1, H2. split; [lia|done].
  - intros [Hlen Hall]. exists (take n s), (drop n s).
    rewrite <- (take_drop n s), forallb_app in Hall.
    apply andb_true_iff in Hall as [H1 H2].
    split; [by rewrite take_drop|]. split.
    + apply lang_power_class. split; [|done]. rewrite length_take. lia.
    + by apply lang_star_class.
Qed.

Lemma in_key_class (c : N) :
  in_class [(97, 122); (65, 90); (48, 57); (95, 95); (45, 45)] c = key_char c.
Proof.
  apply eq_true_iff_eq. unfold in_class, key_char. cbn [existsb fst snd].
  rewrite !orb_true_iff, !andb_true_iff, !N.leb_le, !N.eqb_eq. lia.
Qed.

Lemma in_chr_class (a : ascii) (c : N) :
  in_class [(N_of_ascii a, N_of_ascii a)] c = true ↔ c = N_of_ascii a.
Proof.
  unfold in_class. cbn [existsb fst snd].
  rewrite orb_true_iff, andb_true_iff, !N.leb_le. lia.
Qed.

(** The regular expression of [registerKey] accepts exactly the keys of
    the shape the specification describes. *)
Lemma gemini_key_pattern_shape (apiKey : jsstring) :
  test_anchored BYOK.gemini_key_pattern apiKey = gemini_key_shape apiKey.
Proof.
  apply eq_true_iff_eq. unfold test_anchored. rewrite matches_spec.
  unfold BYOK.gemini_key_pattern. rewrite lang_seq_inv. split.
  - intros (s1 & s2 & -> & (c1 & -> & Hc1)%lang_class_inv & H2).
    apply lang_seq_inv in H2
      as (s3 & rest & -> & (c2 & -> & Hc2)%lang_class_inv & H3).
    apply (in_chr_class "A") in Hc1 as ->. apply (in_chr_class "I") in Hc2 as ->.
    apply lang_at_least_class in H3 as [Hlen Hall].
    cbn [app gemini_key_shape].
    change (N_of_ascii "A") with 65. change (N_of_ascii "I") with 73.
    rewrite !N.eqb_refl, (proj2 (Nat.leb_le _ _) Hlen). cbn [andb].
    erewrite forallb_pointwise; [exact Hall|].
    intros c. symmetry. apply in_key_class.
  - destruct apiKey as [|c1 [|c2 rest]]; [done..|].
    cbn [gemini_key_shape].
    intros [[[->%N.eqb_eq ->%N.eqb_eq]%andb_true_iff Hlen]%andb_true_iff
              Hall]%andb_true_iff.
    apply Nat.leb_le in Hlen. exists [65], (73 :: rest).
    split; [done|]. split; [by apply lang_class_inv; eexists|].
    apply lang_seq_inv. exists [73], rest.
    split; [done|]. split; [by apply lang_class_inv; eexists|].
    apply lang_at_least_class. split; [done|].
    erewrite forallb_pointwise; [exact Hall|]. intros c. apply in_key_class.
Qed.

End key_pattern.

(** ** The orchestrator *)

Section byok_facts.
Import BYOK.
Context {C : Crypto} {L : CryptoLaws} {G : GoogleGenerativeAI}.
Context {S : Type} {K : KeyStore S}.

Lemma ensureValid_ok (self : BYOK.t) :
  length (masterKey self) = 32%nat → ensureValid self = Ok tt.
Proof. unfold ensureValid. by intros ->. Qed.

Lemma ensureValid_cases (self : BYOK.t) :
  ensureValid self = Ok tt ∨ ensureValid self = Throw Not_properly_configured.
Proof. unfold ensureValid. destruct (negb _); auto. Qed.

Lemma gemini_key_shape_nonempty (apiKey : jsstring) :
  gemini_key_shape apiKey = true → apiKey ≠ [].
Proof. by destruct apiKey. Qed.

(** What a failed validation leaves behind: nothing. *)
Lemma registerKey_rejected (self : BYOK.t) (input : RegisterKeyInput.t)
    (w : World S) :
  rejected input →
  ∃ e, registerKey self input w = (Throw e, w)
    ∧ (ensureValid self = Ok tt → validation_error e = true).
Proof.
  intros Hrej. unfold registerKey, bind, lift, throw.
  destruct (ensureValid_cases self) as [-> | ->]; [|by eexists].
  destruct (falsy (str (RegisterKeyInput.userId input))) eqn:Hu; [by eexists|].
  destruct (falsy (str (RegisterKeyInput.provider input))) eqn:Hp;
    [by eexists|].
  destruct (falsy (str (RegisterKeyInput.apiKey input))) eqn:Ha; [by eexists|].
  destruct (bool_decide _) eqn:Hg; cbn [negb]; [|by eexists].
  destruct (Regex.test_anchored _ _) eqn:Ht; cbn [negb]; [|by eexists].
  apply bool_decide_eq_true in Hg.
  destruct Hrej as [?|[?|[?|[?|?]]]]; congruence.
Qed.

(** What an accepted registration does. *)
Lemma registerKey_accepted (self : BYOK.t) (user apiKey : jsstring)
    (w : World S) :
  length (masterKey self) = 32%nat → user ≠ [] →
  gemini_key_shape apiKey = true →
  registerKey self (register_input user (lit "gemini") apiKey) w
  = (Ok tt, registered self user apiKey w).
Proof.
  intros Hk Hu Ha. pose proof (gemini_key_shape_nonempty _ Ha) as Hne.
  unfold registerKey, bind, lift, register_input.
  cbn [RegisterKeyInput.userId RegisterKeyInput.provider
       RegisterKeyInput.apiKey str].
  rewrite ensureValid_ok, !falsy_false, gemini_key_pattern_shape, Ha by done.
  rewrite bool_decide_eq_true_2 by done. cbn [negb].
  unfold encryption_encrypt, bind, called, new_Date, with_store.
  cbn [noted rng]. rewrite encrypt_eq by done.
  unfold registered, registered_record, blob_of.
  cbn [fst snd]. unfold set_store, set_rng, noted.
  cbn [rng store clock calls]. by rewrite <- app_assoc.
Qed.

End byok_facts.

(** ** The in-memory store *)

Section memory_store_facts.
Import BYOK.
Context {C : Crypto} {L : CryptoLaws} {G : GoogleGenerativeAI}.

Lemma key_inj (u u' : jsstring) (p p' : ProviderId) :
  MemoryStore.key u p = MemoryStore.key u' p' → u = u' ∧ p = p'.
Proof.
  destruct p, p'. unfold MemoryStore.key. intros E.
  by apply app_inv_tail in E.
Qed.

Lemma built_indexed (store : MemoryStore.t) : built store → indexed store.
Proof.
  induction 1 as [|record store _ IH|user prov store _ IH]; intros k r.
  - by rewrite lookup_empty.
  - unfold MemoryStore.set. rewrite lookup_insert_Some.
    intros [[<- <-]|[_ Hk]]; [done|by apply IH].
  - cbn [MemoryStore.delete snd]. rewrite lookup_delete_Some.
    intros [_ Hk]. by apply IH.
Qed.

(** At most one record per identity key. *)
Lemma indexed_unique (store : MemoryStore.t) (k1 k2 : jsstring)
    (r1 r2 : KeyRecord) :
  indexed store → store !! k1 = Some r1 → store !! k2 = Some r2 →
  userId r1 = userId r2 → provider r1 = provider r2 → k1 = k2 ∧ r1 = r2.
Proof.
  intros Hix H1 H2 Hu Hp.
  assert (k1 = k2) as <-.
  { rewrite (Hix _ _ H1), (Hix _ _ H2). by rewrite Hu, Hp. }
  split; [done|congruence].
Qed.

Lemma records_of_set (store : MemoryStore.t) (r : KeyRecord) :
  indexed store →
  records_of (userId r) (provider r) (MemoryStore.set r store)
  = {[MemoryStore.key (userId r) (provider r) := r]}.
Proof.
  intros Hix. apply map_eq. intros k. apply option_eq. intros r'.
  unfold records_of, MemoryStore.set.
  rewrite map_lookup_filter_Some, lookup_insert_Some, lookup_singleton_Some.
  cbn [snd]. split.
  - intros [[[<- <-]|[Hne Hk]] [Hu Hp]]; [done|].
    apply Hix in Hk. rewrite Hu, Hp in Hk. congruence.
  - intros [<- <-]. split; [by left|done].
Qed.

Lemma get_set_same (store : MemoryStore.t) (r : KeyRecord) :
  MemoryStore.get (userId r) (provider r) (MemoryStore.set r store) = Some r.
Proof. unfold MemoryStore.get, MemoryStore.set. apply lookup_insert_eq. Qed.

Lemma get_set_other (store : MemoryStore.t) (r : KeyRecord) (u : jsstring)
    (p : ProviderId) :
  (u, p) ≠ (userId r, provider r) →
  MemoryStore.get u p (MemoryStore.set r store) = MemoryStore.get u p store.
Proof.
  intros Hne. unfold MemoryStore.get, MemoryStore.set.
  apply lookup_insert_ne. intros [<- <-]%key_inj. done.
Qed.

Lemma has_get (store : MemoryStore.t) (u : jsstring) (p : ProviderId) :
  MemoryStore.has u p store = bool_decide (is_Some (MemoryStore.get u p store)).
Proof. done. Qed.

Lemma get_delete_same (store : MemoryStore.t) (u : jsstring) (p : ProviderId) :
  MemoryStore.get u p (MemoryStore.delete u p store).2 = None.
Proof. unfold MemoryStore.get, MemoryStore.delete. apply lookup_delete_eq. Qed.

Lemma set_store_same {S} (w : World S) : set_store (store w) w = w.
Proof. by destruct w. Qed.

Lemma hasKey_eq (self : BYOK.t) (u : jsstring) (p : ProviderId)
    (w : World MemoryStore.t) :
  length (masterKey self) = 32%nat →
  hasKey self u p w
  = (Ok (MemoryStore.has u p (store w)), noted Call_store_has w).
Proof.
  intros Hk. unfold hasKey, bind, lift, called, with_store.
  rewrite ensureValid_ok by done. cbn [store_has MemoryStore.keyStore fst snd].
  by rewrite set_store_same.
Qed.

Lemma deleteKey_eq (self : BYOK.t) (u : jsstring) (p : ProviderId)
    (w : World MemoryStore.t) :
  length (masterKey self) = 32%nat →
  deleteKey self u p w
  = (Ok (MemoryStore.delete u p (store w)).1,
     set_store (MemoryStore.delete u p (store w)).2 (noted Call_store_delete w)).
Proof.
  intros Hk. unfold deleteKey, bind, lift, called, with_store.
  by rewrite ensureValid_ok by done.
Qed.

Lemma use_chat {S} {K : KeyStore S} (self : BYOK.t) (u : jsstring)
    (h : handle) :
  use self u = Ok h → chat h = handle_chat self u.
Proof.
  unfold use. destruct (ensureValid self); [|done]. intros E.
  assert (h = {| chat := handle_chat self u |}) as -> by congruence. done.
Qed.

Lemma use_valid {S} {K : KeyStore S} (self : BYOK.t) (u : jsstring)
    (h : handle (S:=S)) :
  use self u = Ok h → length (masterKey self) = 32%nat.
Proof.
  unfold use, ensureValid.
  destruct (length (masterKey self) =? 32)%nat eqn:E; [|done].
  intros _. by apply Nat.eqb_eq.
Qed.

(** [chat] when the store has no record for the user. *)
Lemma chat_no_record (self : BYOK.t) (u : jsstring) (h : handle)
    (input : ChatInput.t) (w : World MemoryStore.t) :
  use self u = Ok h →
  str (ChatInput.provider input) = [] ∨ str (ChatInput.provider input) = lit "gemini" →
  MemoryStore.get u gemini (store w) = None →
  chat h input w = (Throw No_key_found, noted Call_store_get w).
Proof.
  intros Huse Hp Hget. rewrite (use_chat _ _ _ Huse). unfold handle_chat.
  assert ((if falsy (str (ChatInput.provider input)) then lit "gemini"
           else str (ChatInput.provider input)) = lit "gemini") as ->.
  { by destruct Hp as [-> | ->]. }
  rewrite bool_decide_eq_true_2 by done. cbn [negb].
  unfold bind, called, with_store.
  cbn [store_get MemoryStore.keyStore fst snd]. rewrite set_store_same.
  change (store (noted Call_store_get w)) with (store w). by rewrite Hget.
Qed.

End memory_store_facts.

(** ** Validation in [registerKey] *)

Section register_theorems.
Import BYOK.
Context {C : Crypto} {L : CryptoLaws}.

(** C4: when [registerKey] fails validation it throws with the world as
    it was: no call to the cipher or to the store is made, whatever the
    store is, the random source is not read, and with the in-memory store
    [hasKey] for an identity without a record still returns [false]. *)
Theorem registerKey_rejected_no_effect (self : BYOK.t)
    (input : RegisterKeyInput.t) :
  rejected input →
  (∀ (S : Type) (K : KeyStore S) (w : World S),
     ∃ e, registerKey self input w = (Throw e, w)
       ∧ (ensureValid self = Ok tt → validation_error e = true))
  ∧ (∀ (w : World MemoryStore.t) (u : jsstring) (p : ProviderId),
       length (masterKey self) = 32%nat →
       MemoryStore.get u p (store w) = None →
       (hasKey self u p (registerKey self input w).2).1 = Ok false).
Proof.
  intros Hrej. split.
  - intros S K w. by apply registerKey_rejected.
  - intros w u p Hk Hget.
    destruct (registerKey_rejected self input w Hrej) as (e & -> & _).
    cbn [snd]. rewrite hasKey_eq by done. cbn [fst].
    by rewrite has_get, Hget.
Qed.

Lemma registerKey_bad_shape {S} {K : KeyStore S} (self : BYOK.t)
    (user apiKey : jsstring) (w : World S) :
  length (masterKey self) = 32%nat → user ≠ [] → apiKey ≠ [] →
  gemini_key_shape apiKey = false →
  registerKey self (register_input user (lit "gemini") apiKey) w
  = (Throw Gemini_key_appears_invalid, w).
Proof.
  intros Hk Hu Hne Ha. unfold registerKey, bind, lift, register_input.
  cbn [RegisterKeyInput.userId RegisterKeyInput.provider
       RegisterKeyInput.apiKey str].
  rewrite ensureValid_ok, !falsy_false, gemini_key_pattern_shape, Ha by done.
  by rewrite bool_decide_eq_true_2 by done.
Qed.

(** C9: for the provider [gemini], [registerKey] accepts an [apiKey]
    exactly when it is [AI] followed by at least ten ASCII letters,
    digits, hyphens or underscores, which is what the regular expression
    [/^AI[a-zA-Z0-9_-]{10,}$/] matches; every other non-empty [apiKey] is
    answered by the validation error. *)
Theorem registerKey_key_shape {S} {K : KeyStore S} (self : BYOK.t)
    (user apiKey : jsstring) (w : World S) :
  length (masterKey self) = 32%nat → user ≠ [] → apiKey ≠ [] →
  Regex.test_anchored gemini_key_pattern apiKey = gemini_key_shape apiKey
  ∧ (gemini_key_shape apiKey = true →
     registerKey self (register_input user (lit "gemini") apiKey) w
     = (Ok tt, registered self user apiKey w))
  ∧ (gemini_key_shape apiKey = false →
     registerKey self (register_input user (lit "gemini") apiKey) w
     = (Throw Gemini_key_appears_invalid, w))
  ∧ ((registerKey self (register_input user (lit "gemini") apiKey) w).1 = Ok tt
     ↔ gemini_key_shape apiKey = true).
Proof.
  intros Hk Hu Hne.
  split; [apply gemini_key_pattern_shape|].
  split; [by apply registerKey_accepted|].
  split; [by apply registerKey_bad_shape|].
  destruct (gemini_key_shape apiKey) eqn:Ha.
  - by rewrite registerKey_accepted.
  - by rewrite registerKey_bad_shape.
Qed.

End register_theorems.

Lemma registerKey_rejected_no_effect_witness :
  (BYOK.hasKey sample_self (lit "u1") gemini
     (BYOK.registerKey (C:=toy_crypto) sample_self
        (register_input (lit "u1") (lit "gemini") (lit "bad"))
        sample_world).2).1 = Ok false.
Proof.
  refine (proj2 (registerKey_rejected_no_effect (C:=toy_crypto) sample_self
                   (register_input (lit "u1") (lit "gemini") (lit "bad")) _)
            sample_world (lit "u1") gemini _ _);
    [|reflexivity|reflexivity].
  do 4 right. reflexivity.
Defined.

Lemma registerKey_key_shape_witness :
  (BYOK.registerKey (C:=toy_crypto) sample_self
     (register_input (lit "u1") (lit "gemini") sample_apiKey) sample_world).1
  = Ok tt ↔ gemini_key_shape sample_apiKey = true.
Proof.
  refine (proj2 (proj2 (proj2 (registerKey_key_shape (C:=toy_crypto)
            sample_self (lit "u1") sample_apiKey sample_world _ _ _))));
    [reflexivity|done|done].
Defined.

(** Keys the pattern accepts and keys it refuses. *)
Example pattern_examples :
  Regex.test_anchored BYOK.gemini_key_pattern sample_apiKey = true
  ∧ Regex.test_anchored BYOK.gemini_key_pattern (lit "AI0123456789") = true
  ∧ Regex.test_anchored BYOK.gemini_key_pattern (lit "AI012345678") = false
  ∧ Regex.test_anchored BYOK.gemini_key_pattern (lit "ai0123456789") = false
  ∧ Regex.test_anchored BYOK.gemini_key_pattern (lit "AI01234 56789") = false
  ∧ Regex.test_anchored BYOK.gemini_key_pattern (lit "bad") = false.
Proof. vm_compute. done. Qed.

(** ** Fresh salt and IV *)

Section freshness.
Import Encryption BYOK.
Context {C : Crypto} {L : CryptoLaws}.

Lemma randomBytes_48 (g : Rng) :
  (randomBytes 48 g).1 = drawn_salt g ++ drawn_iv g.
Proof.
  unfold drawn_salt, drawn_iv, randomBytes, saltLength, ivLength.
  cbn [fst snd tape pos]. rewrite <- map_app. f_equal.
  by rewrite <- seq_app.
Qed.

Lemma after_encrypt_pos (g : Rng) :
  pos (after_encrypt g) = (pos g + 48)%nat ∧ tape (after_encrypt g) = tape g.
Proof.
  unfold after_encrypt, randomBytes, saltLength, ivLength.
  cbn [fst snd tape pos]. split; [lia|done].
Qed.

(** Two blobs are equal only if their salts and IVs are. *)
Lemma blob_of_inj (p p' : jsstring) (k k' : MasterKey) (g g' : Rng) :
  blob_of p k g = blob_of p' k' g' →
  drawn_salt g = drawn_salt g' ∧ drawn_iv g = drawn_iv g'.
Proof.
  unfold blob_of. intros E. apply (f_equal Base64.decode) in E.
  rewrite !sextets_encode_decode in E.
  apply app_inj_1 in E as [Hs E];
    [|by rewrite !drawn_salt_length].
  apply app_inj_1 in E as [Hi _]; [done|by rewrite !drawn_iv_length].
Qed.

(** C8: when the random source gives the second call other bytes than the
    first, two calls of [encrypt] with the same plaintext and master key
    return different blobs: each call reads 48 new bytes of the source,
    32 for the salt and 16 for the IV, and both are part of the blob.
    Hence registering the same secret twice stores two different
    ciphertexts. *)
Theorem encrypt_twice_differs (plaintext : jsstring) (masterKey : MasterKey)
    (g : Rng) :
  plaintext ≠ [] → length (keyBuffer masterKey) = 32%nat →
  let first := encrypt plaintext masterKey g in
  let second := encrypt plaintext masterKey first.2 in
  (randomBytes 48 g).1 ≠ (randomBytes 48 first.2).1 →
  pos first.2 = (pos g + 48)%nat
  ∧ (∃ blob1 blob2,
       first.1 = Ok blob1 ∧ second.1 = Ok blob2 ∧ blob1 ≠ blob2)
  ∧ (∀ (self : BYOK.t) (user : jsstring) (w : World MemoryStore.t),
       masterKey = KeyBuffer (BYOK.masterKey self) → rng w = g →
       user ≠ [] → gemini_key_shape plaintext = true →
       let input := register_input user (lit "gemini") plaintext in
       let w1 := (registerKey self input w).2 in
       let w2 := (registerKey self input w1).2 in
       ∃ r1 r2,
         MemoryStore.get user gemini (store w1) = Some r1
         ∧ MemoryStore.get user gemini (store w2) = Some r2
         ∧ encryptedKey r1 ≠ encryptedKey r2).
Proof.
  intros Hp Hk first second. unfold second, first.
  rewrite !encrypt_eq by done. cbn [fst snd]. intros Hfresh.
  rewrite !randomBytes_48 in Hfresh.
  assert (Hblobs : blob_of plaintext masterKey g
                   ≠ blob_of plaintext masterKey (after_encrypt g)).
  { intros [Hs Hi]%blob_of_inj. by rewrite Hs, Hi in Hfresh. }
  split; [apply after_encrypt_pos|]. split; [by eexists _, _|].
  intros self user w -> <- Hu Ha.
  cbn [keyBuffer] in Hk. rewrite !registerKey_accepted by done.
  cbn [snd]. eexists _, _. split; [|split].
  - unfold registered at 1. cbn [store store_set MemoryStore.keyStore].
    apply (get_set_same _ (registered_record self user plaintext w)).
  - unfold registered at 1. cbn [store store_set MemoryStore.keyStore].
    apply (get_set_same _ (registered_record self user plaintext
                             (registered self user plaintext w))).
  - exact Hblobs.
Qed.

End freshness.

Lemma encrypt_twice_differs_witness :
  ∃ blob1 blob2,
    (Encryption.encrypt (C:=toy_crypto) sample_apiKey sample_key counting_rng).1
    = Ok blob1
    ∧ (Encryption.encrypt (C:=toy_crypto) sample_apiKey sample_key
         (Encryption.encrypt (C:=toy_crypto) sample_apiKey sample_key
            counting_rng).2).1 = Ok blob2
    ∧ blob1 ≠ blob2.
Proof.
  refine (proj1 (proj2 (encrypt_twice_differs (C:=toy_crypto)
                          sample_apiKey sample_key counting_rng _ _ _)));
    [done|reflexivity|].
  vm_compute. discriminate.
Defined.

(** With a random source that repeats itself the two blobs are equal: the
    difference comes from the source, the code adds nothing to it. *)
Example stuck_source_repeats :
  (Encryption.encrypt (C:=toy_crypto) sample_apiKey sample_key stuck_rng).1
  = (Encryption.encrypt (C:=toy_crypto) sample_apiKey sample_key
       (Encryption.encrypt (C:=toy_crypto) sample_apiKey sample_key
          stuck_rng).2).1.
Proof. vm_compute. reflexivity. Qed.

(** ** One record per identity key *)

Section identity_theorems.
Import BYOK.
Context {C : Crypto}.

Lemma registered_store (self : BYOK.t) (user apiKey : jsstring)
    (w : World MemoryStore.t) :
  store (registered self user apiKey w)
  = MemoryStore.set (registered_record self user apiKey w) (store w).
Proof. done. Qed.

(** C5: the store holds at most one record per identity key.  A second
    successful [registerKey] for the same user and provider leaves exactly
    one record for that identity, the new one, which is what [get]
    returns, and the number of records is unchanged; the records of every
    other identity key are as before, so [hasKey] of another user gives
    the answer it gave before. *)
Theorem registerKey_replaces_record (self : BYOK.t)
    (user apiKey1 apiKey2 : jsstring) (w : World MemoryStore.t) :
  length (masterKey self) = 32%nat → user ≠ [] →
  gemini_key_shape apiKey1 = true → gemini_key_shape apiKey2 = true →
  built (store w) →
  let w1 := registered self user apiKey1 w in
  let w2 := registered self user apiKey2 w1 in
  let r1 := registered_record self user apiKey1 w in
  let r2 := registered_record self user apiKey2 w1 in
  registerKey self (register_input user (lit "gemini") apiKey1) w = (Ok tt, w1)
  ∧ registerKey self (register_input user (lit "gemini") apiKey2) w1
    = (Ok tt, w2)
  ∧ built (store w2)
  ∧ (∀ k k' r r',
       store w2 !! k = Some r → store w2 !! k' = Some r' →
       userId r = userId r' → provider r = provider r' → k = k' ∧ r = r')
  ∧ records_of user gemini (store w1) = {[MemoryStore.key user gemini := r1]}
  ∧ records_of user gemini (store w2) = {[MemoryStore.key user gemini := r2]}
  ∧ size (records_of user gemini (store w2)) = 1%nat
  ∧ MemoryStore.get user gemini (store w2) = Some r2
  ∧ size (store w2) = size (store w1)
  ∧ (∀ u p, (u, p) ≠ (user, gemini) →
       MemoryStore.get u p (store w1) = MemoryStore.get u p (store w)
       ∧ (hasKey self u p w1).1 = (hasKey self u p w).1).
Proof.
  intros Hk Hu Ha1 Ha2 Hbuilt w1 w2 r1 r2.
  assert (Hb1 : built (store w1)) by (by apply built_set).
  assert (Hb2 : built (store w2)) by (by apply built_set).
  assert (Hrec1 : records_of user gemini (store w1)
                  = {[MemoryStore.key user gemini := r1]}).
  { apply (records_of_set (store w) r1). by apply built_indexed. }
  assert (Hrec2 : records_of user gemini (store w2)
                  = {[MemoryStore.key user gemini := r2]}).
  { apply (records_of_set (store w1) r2). by apply built_indexed. }
  split; [by apply registerKey_accepted|].
  split; [by apply registerKey_accepted|].
  split; [done|].
  split; [intros k k' r r'; apply indexed_unique; by apply built_indexed|].
  split; [done|]. split; [done|].
  split; [rewrite Hrec2; apply map_size_singleton|].
  split; [apply (get_set_same (store w1) r2)|].
  split.
  - unfold w2. rewrite registered_store. unfold MemoryStore.set.
    rewrite map_size_insert. fold r2. cbn [userId provider r2 registered_record].
    change (store w1 !! MemoryStore.key user gemini)
      with (MemoryStore.get (userId r1) (provider r1)
              (MemoryStore.set r1 (store w))).
    by rewrite get_set_same.
  - intros u p Hne.
    assert (Hget : MemoryStore.get u p (store w1) = MemoryStore.get u p (store w))
      by (by apply (get_set_other (store w) r1)).
    split; [done|]. rewrite !hasKey_eq by done. cbn [fst].
    by rewrite !has_get, Hget.
Qed.

End identity_theorems.

Lemma registerKey_replaces_record_witness :
  MemoryStore.get (lit "u1") gemini
    (store (registered (C:=toy_crypto) sample_self (lit "u1")
              (lit "AI0123456789")
              (registered (C:=toy_crypto) sample_self (lit "u1") sample_apiKey
                 sample_world)))
  = Some (registered_record (C:=toy_crypto) sample_self (lit "u1")
            (lit "AI0123456789")
            (registered (C:=toy_crypto) sample_self (lit "u1") sample_apiKey
               sample_world)).
Proof.
  destruct (registerKey_replaces_record (C:=toy_crypto) sample_self (lit "u1")
              sample_apiKey (lit "AI0123456789") sample_world)
    as (_ & _ & _ & _ & _ & _ & _ & Hget & _);
    [reflexivity|done|reflexivity|reflexivity|constructor|exact Hget].
Defined.

(** ** [use(userId).chat] without a key *)

Section chat_theorems.
Import BYOK.
Context {C : Crypto} {G : GoogleGenerativeAI}.

Lemma chat_other_provider {S} {K : KeyStore S} (self : BYOK.t)
    (user : jsstring) (h : handle) (input : ChatInput.t) (w : World S) :
  use self user = Ok h →
  str (ChatInput.provider input) ≠ [] →
  str (ChatInput.provider input) ≠ lit "gemini" →
  chat h input w = (Throw Only_gemini_is_supported, w).
Proof.
  intros Huse Hne Hg. rewrite (use_chat _ _ _ Huse). unfold handle_chat.
  rewrite falsy_false by done. by rewrite bool_decide_eq_false_2 by done.
Qed.

(** C6: [chat] takes the provider [gemini] when none is given, fails for
    every other provider, and, when the store has no record for the user,
    which is the case right after a successful [deleteKey], fails with
    "No key found", an error that is not a decryption failure, after one
    call to the store and none to the cipher or to the provider adapter. *)
Theorem chat_without_key (self : BYOK.t) (user : jsstring) (h : handle)
    (w : World MemoryStore.t) :
  use self user = Ok h →
  (∀ prompt model,
     chat h {| ChatInput.prompt := prompt; ChatInput.model := model;
               ChatInput.provider := None |} w
     = chat h {| ChatInput.prompt := prompt; ChatInput.model := model;
                 ChatInput.provider := Some (lit "gemini") |} w)
  ∧ (∀ input,
       str (ChatInput.provider input) ≠ [] →
       str (ChatInput.provider input) ≠ lit "gemini" →
       chat h input w = (Throw Only_gemini_is_supported, w))
  ∧ (∀ input,
       str (ChatInput.provider input) = []
       ∨ str (ChatInput.provider input) = lit "gemini" →
       MemoryStore.get user gemini (store w) = None →
       chat h input w = (Throw No_key_found, noted Call_store_get w))
  ∧ (∀ cause,
       No_key_found ≠ Decryption_failed cause
       ∧ message No_key_found ≠ message (Decryption_failed cause))
  ∧ (∀ input,
       str (ChatInput.provider input) = []
       ∨ str (ChatInput.provider input) = lit "gemini" →
       (deleteKey self user gemini w).1 = Ok true →
       let w' := (deleteKey self user gemini w).2 in
       (hasKey self user gemini w').1 = Ok false
       ∧ chat h input w' = (Throw No_key_found, noted Call_store_get w')).
Proof.
  intros Huse. pose proof (use_valid _ _ _ Huse) as Hk.
  split; [|split; [|split; [|split]]].
  - intros prompt model. by rewrite (use_chat _ _ _ Huse).
  - intros input. by apply (chat_other_provider self user).
  - intros input. by apply (chat_no_record self user).
  - intros cause. split; [done|]. cbn [message]. discriminate.
  - intros input Hp _ w'.
    assert (Hget : MemoryStore.get user gemini (store w') = None).
    { unfold w'. rewrite deleteKey_eq by done. apply get_delete_same. }
    split; [|by apply (chat_no_record self user)].
    rewrite hasKey_eq by done. cbn [fst]. by rewrite has_get, Hget.
Qed.

End chat_theorems.

Lemma chat_without_key_witness :
  BYOK.handle_chat (C:=toy_crypto) (G:=echo_gemini) sample_self (lit "u1")
    {| ChatInput.prompt := Some (lit "hi"); ChatInput.model := None;
       ChatInput.provider := None |} sample_world
  = (Throw No_key_found, noted Call_store_get sample_world).
Proof.
  destruct (chat_without_key (C:=toy_crypto) (G:=echo_gemini) sample_self
              (lit "u1")
              {| BYOK.chat := BYOK.handle_chat (C:=toy_crypto) (G:=echo_gemini)
                                sample_self (lit "u1") |}
              sample_world)
    as (_ & _ & Hnone & _); [reflexivity|].
  apply Hnone; [by left|reflexivity].
Defined.

(** The end-to-end scenarios of the specification, run on the in-memory
    store: register, has, delete, has, chat; and a registration with the
    key [bad]. *)
Example scenario_register_delete_chat :
  let register :=
    BYOK.registerKey (C:=toy_crypto) sample_self
      (register_input (lit "u1") (lit "gemini") sample_apiKey) sample_world in
  let has1 := BYOK.hasKey sample_self (lit "u1") gemini register.2 in
  let deleted := BYOK.deleteKey sample_self (lit "u1") gemini has1.2 in
  let has2 := BYOK.hasKey sample_self (lit "u1") gemini deleted.2 in
  let chatted :=
    BYOK.handle_chat (C:=toy_crypto) (G:=echo_gemini) sample_self (lit "u1")
      {| ChatInput.prompt := Some (lit "hi"); ChatInput.model := None;
         ChatInput.provider := None |} has2.2 in
  register.1 = Ok tt ∧ has1.1 = Ok true ∧ deleted.1 = Ok true
  ∧ has2.1 = Ok false ∧ chatted.1 = Throw No_key_found
  ∧ calls chatted.2
    = [Call_encrypt; Call_store_set; Call_store_has; Call_store_delete;
       Call_store_has; Call_store_get].
Proof. vm_compute. done. Qed.

Example scenario_bad_key :
  let register :=
    BYOK.registerKey (C:=toy_crypto) sample_self
      (register_input (lit "u1") (lit "gemini") (lit "bad")) sample_world in
  register = (Throw Gemini_key_appears_invalid, sample_world)
  ∧ (BYOK.hasKey sample_self (lit "u1") gemini register.2).1 = Ok false.
Proof. vm_compute. done. Qed.

(** A chat that finds its key: the stored blob is decrypted and the
    adapter is called with the key that was registered. *)
Example scenario_chat :
  let register :=
    BYOK.registerKey (C:=toy_crypto) sample_self
      (register_input (lit "u1") (lit "gemini") sample_apiKey) sample_world in
  let chatted :=
    BYOK.handle_chat (C:=toy_crypto) (G:=echo_gemini) sample_self (lit "u1")
      {| ChatInput.prompt := Some (lit "hi"); ChatInput.model := None;
         ChatInput.provider := None |} register.2 in
  chatted.1 = Ok {| text := lit "hi" |}
  ∧ calls chatted.2
    = [Call_encrypt; Call_store_set; Call_store_get; Call_decrypt;
       Call_provider].
Proof. vm_compute. done. Qed.

(** ** The master key at construction *)

Section master_key.
Import BYOK.

Lemma sextets_length (s : jsstring) :
  (length (Base64.sextets s) <= length s)%nat.
Proof.
  induction s as [|c s IH]; [done|]. cbn [Base64.sextets length]. cbv zeta.
  destruct (Base64.unbase64 (c mod 256)); [cbn [length]; lia|].
  destruct (c mod 256 =? Base64.pad); [cbn [length]|]; lia.
Qed.

Lemma list_ind4 {A} (P : list A → Prop) :
  P [] → (∀ x, P [x]) → (∀ x y, P [x; y]) → (∀ x y z, P [x; y; z]) →
  (∀ x y z t l, P l → P (x :: y :: z :: t :: l)) →
  ∀ l, P l.
Proof.
  intros H0 H1 H2 H3 H4.
  fix IH 1. intros [|x [|y [|z [|t l]]]];
    [exact H0|exact (H1 x)|exact (H2 x y)|exact (H3 x y z)|].
  exact (H4 x y z t l (IH l)).
Qed.

(** Four characters give at most three bytes. *)
Lemma unpack_length (v : list N) :
  (4 * length (Base64.unpack v) <= 3 * length v)%nat.
Proof.
  induction v as [| | | |x y z t l IH] using list_ind4;
    cbn [Base64.unpack length] in *; lia.
Qed.

Lemma decode_length (s : jsstring) :
  (4 * length (Base64.decode s) <= 3 * length s)%nat.
Proof.
  unfold Base64.decode. pose proof (unpack_length (Base64.sextets s)).
  pose proof (sextets_length s). lia.
Qed.

(** A text of at most 42 UTF-8 bytes cannot be base64 for 32 bytes, and a
    text that is base64 for 31 bytes or more has at least 42 bytes. *)
Lemma short_text_not_base64_key (text : jsstring) :
  (length (Utf8.encode text) <= 42)%nat → length (Base64.decode text) ≠ 32%nat.
Proof.
  intros Hlen. pose proof (utf8_encode_length_ge text).
  pose proof (decode_length text). lia.
Qed.

Lemma base64_text_is_long (text : jsstring) :
  (31 <= length (Base64.decode text))%nat →
  (42 <= length (Utf8.encode text))%nat.
Proof.
  intros Hlen. pose proof (utf8_encode_length_ge text).
  pose proof (decode_length text). lia.
Qed.

Lemma utf8_encode_ascii (text : jsstring) :
  Forall (λ u, u < 128) text → Utf8.encode text = map byte_of_N text.
Proof.
  induction 1 as [|u text Hu _ IH]; [done|]. cbn [Utf8.encode map].
  unfold Utf8.is_high, Utf8.is_low, Utf8.encode_cp.
  rewrite (proj2 (N.leb_gt 0xD800 u)), (proj2 (N.leb_gt 0xDC00 u)),
    (proj2 (N.ltb_lt u 0x80)) by lia.
  cbn [andb app]. by rewrite IH.
Qed.

Lemma constructor_accepts (key : MasterKey) :
  length (normalizeMasterKey key) = 32%nat →
  constructor (Some key) = Ok {| masterKey := normalizeMasterKey key |}.
Proof.
  intros Hlen. unfold constructor, missing. rewrite Hlen.
  destruct key as [b|[|c s]]; [done| |done].
  cbn in Hlen. discriminate Hlen.
Qed.

Lemma constructor_rejects (key : MasterKey) :
  length (normalizeMasterKey key) ≠ 32%nat →
  constructor (Some key) = Throw MasterKey_is_required
  ∨ constructor (Some key)
    = Throw (Config_master_key_not_32_bytes (length (normalizeMasterKey key))).
Proof.
  intros Hlen. unfold constructor.
  destruct (missing (Some key)); [by left|]. right.
  by rewrite (proj2 (Nat.eqb_neq _ _) Hlen).
Qed.

Lemma normalize_text_utf8 (text : jsstring) :
  length (Base64.decode text) ≠ 32%nat →
  normalizeMasterKey (KeyString text) = Utf8.encode text.
Proof.
  intros Hlen. unfold normalizeMasterKey.
  by rewrite (proj2 (Nat.eqb_neq _ _) Hlen).
Qed.

Lemma normalize_text_base64 (text : jsstring) :
  length (Base64.decode text) = 32%nat →
  normalizeMasterKey (KeyString text) = Base64.decode text.
Proof. intros Hlen. unfold normalizeMasterKey. by rewrite Hlen. Qed.

(** C3, as amended: the master key is normalized in the order buffer,
    base64, UTF-8; 32 bytes given as a buffer, as a text with these UTF-8
    bytes, or as a base64 text that decodes to them, are accepted and give
    the same instance; a text of 32 characters is accepted exactly when
    all its characters are ASCII, since only then it has 32 UTF-8 bytes;
    a value whose normalization does not have 32 bytes is rejected, in
    particular 31 or 33 bytes in any of the three forms. *)
Theorem master_key_forms (b : bytes) :
  length b = 32%nat →
  (∀ buffer, normalizeMasterKey (KeyBuffer buffer) = buffer)
  ∧ (∀ text, length (Base64.decode text) = 32%nat →
       normalizeMasterKey (KeyString text) = Base64.decode text)
  ∧ (∀ text, length (Base64.decode text) ≠ 32%nat →
       normalizeMasterKey (KeyString text) = Utf8.encode text)
  ∧ constructor (Some (KeyBuffer b)) = Ok {| masterKey := b |}
  ∧ (∀ text, Utf8.encode text = b →
       constructor (Some (KeyString text)) = Ok {| masterKey := b |})
  ∧ (∀ text, length text = 32%nat → Forall (λ u, u < 128) text →
       constructor (Some (KeyString text))
       = Ok {| masterKey := map byte_of_N text |})
  ∧ (∀ text, length text = 32%nat →
       (∃ self, constructor (Some (KeyString text)) = Ok self)
       ↔ Forall (λ u, u < 128) text)
  ∧ (∀ text, Base64.decode text = b →
       constructor (Some (KeyString text)) = Ok {| masterKey := b |})
  ∧ constructor (Some (KeyString (Base64.encode b))) = Ok {| masterKey := b |}
  ∧ (∀ key, length (normalizeMasterKey key) ≠ 32%nat →
       ∃ e, constructor (Some key) = Throw e)
  ∧ (∀ buffer, length buffer = 31%nat ∨ length buffer = 33%nat →
       ∃ e, constructor (Some (KeyBuffer buffer)) = Throw e)
  ∧ (∀ text,
       length (Utf8.encode text) = 31%nat ∨ length (Utf8.encode text) = 33%nat →
       ∃ e, constructor (Some (KeyString text)) = Throw e)
  ∧ (∀ text,
       length (Base64.decode text) = 31%nat
       ∨ length (Base64.decode text) = 33%nat →
       ∃ e, constructor (Some (KeyString text)) = Throw e)
  ∧ constructor None = Throw MasterKey_is_required.
Proof.
  intros Hb.
  assert (Hrej : ∀ key, length (normalizeMasterKey key) ≠ 32%nat →
                        ∃ e, constructor (Some key) = Throw e).
  { intros key Hlen. destruct (constructor_rejects key Hlen); by eexists. }
  assert (Hb64 : ∀ text, Base64.decode text = b →
            constructor (Some (KeyString text)) = Ok {| masterKey := b |}).
  { intros text Hdec. rewrite constructor_accepts.
    - by rewrite normalize_text_base64, Hdec by (by rewrite Hdec).
    - by rewrite normalize_text_base64, Hdec by (by rewrite Hdec). }
  assert (Hascii : ∀ text, length text = 32%nat → Forall (λ u, u < 128) text →
            constructor (Some (KeyString text))
            = Ok {| masterKey := map byte_of_N text |}).
  { intros text Hlen Hall.
    assert (Hnorm : normalizeMasterKey (KeyString text) = map byte_of_N text).
    { rewrite normalize_text_utf8; [by apply utf8_encode_ascii|].
      apply short_text_not_base64_key.
      rewrite utf8_encode_ascii, length_map by done. lia. }
    rewrite constructor_accepts; rewrite Hnorm; [done|].
    by rewrite length_map. }
  assert (H32 : ∀ text, length text = 32%nat →
            (∃ self, constructor (Some (KeyString text)) = Ok self)
            ↔ Forall (λ u, u < 128) text).
  { intros text Hlen. split; [|intros Hall; eexists; by apply Hascii].
    intros [self Hself]. apply utf8_same_length_ascii. rewrite Hlen.
    assert (Hnorm : normalizeMasterKey (KeyString text) = Utf8.encode text).
    { apply normalize_text_utf8. pose proof (decode_length text). lia. }
    destruct (decide (length (Utf8.encode text) = 32%nat)) as [|Hne]; [done|].
    rewrite <- Hnorm in Hne.
    destruct (constructor_rejects _ Hne) as [E|E];
      rewrite E in Hself; discriminate Hself. }
  repeat split.
  - apply normalize_text_base64.
  - apply normalize_text_utf8.
  - by apply constructor_accepts.
  - intros text Henc.
    assert (Hnorm : normalizeMasterKey (KeyString text) = b).
    { rewrite normalize_text_utf8; [done|].
      apply short_text_not_base64_key. rewrite Henc. lia. }
    rewrite constructor_accepts; by rewrite Hnorm.
  - exact Hascii.
  - by apply H32.
  - by apply H32.
  - exact Hb64.
  - apply Hb64, sextets_encode_decode.
  - exact Hrej.
  - intros buffer Hlen. apply Hrej. cbn [normalizeMasterKey]. lia.
  - intros text Hlen. apply Hrej.
    rewrite normalize_text_utf8; [lia|].
    apply short_text_not_base64_key. lia.
  - intros text Hlen. apply Hrej.
    rewrite normalize_text_utf8 by lia.
    pose proof (base64_text_is_long text). lia.
Qed.

End master_key.

Lemma master_key_forms_witness :
  BYOK.constructor
    (Some (KeyString (lit "a2tra2tra2tra2tra2tra2tra2tra2tra2tra2tra2s=")))
  = Ok {| BYOK.masterKey := replicate 32 Byte.x6b |}.
Proof.
  destruct (master_key_forms (replicate 32 Byte.x6b))
    as (_ & _ & _ & _ & _ & _ & _ & Hbase64 & _); [reflexivity|].
  apply Hbase64. vm_compute. reflexivity.
Defined.

(** C3, as stated, fails: these 32 characters have 33 UTF-8 bytes and
    are not base64 for 32 bytes, so the constructor refuses them. *)
Lemma master_key_32_characters_refused :
  ¬ (∀ text : jsstring, length text = 32%nat →
       ∃ self, BYOK.constructor (Some (KeyString text)) = Ok self).
Proof.
  intros Hall. destruct (Hall (0xE9 :: replicate 31 107)) as [self Hself];
    [reflexivity|].
  vm_compute in Hself. discriminate Hself.
Qed.

Example accented_master_key :
  BYOK.constructor (Some (KeyString (0xE9 :: replicate 31 107)))
  = Throw (Config_master_key_not_32_bytes 33).
Proof. vm_compute. reflexivity. Qed.

(** The base64 branch reads code units through their low byte: 43 times
    U+0141 is taken as 43 times [A] and gives 32 zero bytes, and one
    U+0141 before a base64 key shifts it to 33 bytes, which is refused
    with the 46 UTF-8 bytes of the text. *)
Example wide_master_keys :
  BYOK.constructor (Some (KeyString (replicate 43 0x141)))
  = Ok {| BYOK.masterKey := replicate 32 Byte.x00 |}
  ∧ BYOK.constructor
      (Some (KeyString
         (0x141 :: lit "a2tra2tra2tra2tra2tra2tra2tra2tra2tra2tra2s=")))
    = Throw (Config_master_key_not_32_bytes 46).
Proof. vm_compute. done. Qed.

(** The same key in its three forms, and values that are refused. *)
Example master_key_examples :
  BYOK.constructor (Some (KeyBuffer (replicate 32 Byte.x6b)))
  = Ok {| BYOK.masterKey := replicate 32 Byte.x6b |}
  ∧ BYOK.constructor (Some (KeyString (lit "kkkkkkkkkkkkkkkkkkkkkkkkkkkkkkkk")))
    = Ok {| BYOK.masterKey := replicate 32 Byte.x6b |}
  ∧ BYOK.constructor
      (Some (KeyString (lit "a2tra2tra2tra2tra2tra2tra2tra2tra2tra2tra2s=")))
    = Ok {| BYOK.masterKey := replicate 32 Byte.x6b |}
  ∧ BYOK.constructor (Some (KeyString (lit "kkkkkkkkkkkkkkkkkkkkkkkkkkkkkkk")))
    = Throw (Config_master_key_not_32_bytes 31)
  ∧ BYOK.constructor (Some (KeyString (lit "kkkkkkkkkkkkkkkkkkkkkkkkkkkkkkkkk")))
    = Throw (Config_master_key_not_32_bytes 33)
  ∧ BYOK.constructor (Some (KeyString [])) = Throw MasterKey_is_required
  ∧ BYOK.constructor (Some (KeyBuffer [])) = Throw (Config_master_key_not_32_bytes 0).
Proof. vm_compute. done. Qed.

(** * Further properties of the code *)

(** ** The cipher: input checks, randomness, size of the blob *)

Section cipher_extras.
Import Encryption.
Context {C : Crypto} {L : CryptoLaws}.

(** X1: with a master key that does not normalize to 32 bytes, [encrypt]
    and [decrypt] throw the key-length error for every non-empty input,
    with the number of bytes received, without reading the random source;
    in [decrypt] this error is not wrapped as a decryption failure.  An
    empty input is reported before the key is looked at. *)
Theorem cipher_rejects_bad_key (input : jsstring) (masterKey : MasterKey)
    (g : Rng) :
  length (keyBuffer masterKey) ≠ 32%nat → input ≠ [] →
  encrypt input masterKey g
  = (Throw (Master_key_not_32_bytes (length (keyBuffer masterKey))), g)
  ∧ decrypt input masterKey g
    = (Throw (Master_key_not_32_bytes (length (keyBuffer masterKey))), g)
  ∧ encrypt [] masterKey g = (Throw Plaintext_not_a_non_empty_string, g)
  ∧ decrypt [] masterKey g = (Throw Ciphertext_not_a_non_empty_string, g).
Proof.
  intros Hk Hne. unfold encrypt, decrypt.
  by rewrite !falsy_false, validateMasterKey_throw by done.
Qed.

Lemma encrypt_throw_rng (plaintext : jsstring) (masterKey : MasterKey)
    (g : Rng) (e : error) :
  (encrypt plaintext masterKey g).1 = Throw e →
  (encrypt plaintext masterKey g).2 = g.
Proof.
  unfold encrypt. destruct (falsy plaintext); [done|].
  by destruct (validateMasterKey masterKey).
Qed.

Lemma encrypt_ok_inv (plaintext : jsstring) (masterKey : MasterKey)
    (g : Rng) (blob : jsstring) :
  (encrypt plaintext masterKey g).1 = Ok blob →
  plaintext ≠ [] ∧ length (keyBuffer masterKey) = 32%nat.
Proof.
  unfold encrypt, validateMasterKey, keyLength.
  destruct plaintext as [|c s]; [done|]. cbn [falsy].
  destruct (length (keyBuffer masterKey) =? 32)%nat eqn:E; [|done].
  intros _. split; [done|by apply Nat.eqb_eq].
Qed.

(** X2: [decrypt] never reads the random source; [encrypt] does not read
    it when it throws, and when it returns a blob it has read exactly 48
    bytes, and the blob is made of the salt and IV found there. *)
Theorem cipher_randomness (input : jsstring) (masterKey : MasterKey)
    (g : Rng) :
  (decrypt input masterKey g).2 = g
  ∧ (∀ e, (encrypt input masterKey g).1 = Throw e →
       (encrypt input masterKey g).2 = g)
  ∧ (∀ blob, (encrypt input masterKey g).1 = Ok blob →
       pos (encrypt input masterKey g).2 = (pos g + 48)%nat
       ∧ tape (encrypt input masterKey g).2 = tape g
       ∧ take 32 (Base64.decode blob) = map (tape g) (seq (pos g) 32)
       ∧ take 16 (drop 32 (Base64.decode blob))
         = map (tape g) (seq (pos g + 32) 16)).
Proof.
  split; [apply decrypt_rng|]. split; [apply encrypt_throw_rng|].
  intros blob Hblob. destruct (encrypt_ok_inv _ _ _ _ Hblob) as [Hp Hk].
  rewrite encrypt_eq in * by done. cbn [fst snd] in *.
  assert (Hdec : Base64.decode blob
    = drawn_salt g ++ drawn_iv g ++ (sealed input masterKey g).2
      ++ (sealed input masterKey g).1)
    by (rewrite <- sextets_encode_decode; congruence).
  split; [apply after_encrypt_pos|]. split; [apply after_encrypt_pos|].
  rewrite Hdec. pose proof (drawn_salt_length g) as Hs.
  pose proof (drawn_iv_length g) as Hi.
  rewrite take_app_length', drop_app_length', take_app_length' by done.
  done.
Qed.

Lemma base64_encode_length (b : bytes) :
  length (Base64.encode b) = (4 * ((length b + 2) / 3))%nat.
Proof.
  induction b as [|x|x y|x y z l IH] using list_ind3;
    [done..|].
  cbn [Base64.encode length]. rewrite IH.
  replace (S (S (S (length l))) + 2)%nat with (length l + 2 + 1 * 3)%nat by lia.
  rewrite Nat.div_add by done. lia.
Qed.

(** X3: the blob of a plaintext of n UTF-8 bytes has 4 * ceil((64 + n) / 3)
    characters: at least 88, and always a multiple of four. *)
Theorem encrypt_blob_characters (plaintext : jsstring)
    (masterKey : MasterKey) (g : Rng) :
  plaintext ≠ [] → length (keyBuffer masterKey) = 32%nat →
  ∃ blob, (encrypt plaintext masterKey g).1 = Ok blob
    ∧ length blob
      = (4 * ((64 + length (Utf8.encode plaintext) + 2) / 3))%nat
    ∧ (88 <= length blob)%nat ∧ (length blob mod 4 = 0)%nat.
Proof.
  intros Hp Hk. rewrite encrypt_eq by done. eexists. split; [done|].
  rewrite base64_encode_length, !length_app.
  rewrite drawn_salt_length, drawn_iv_length, sealed_tag_length,
    sealed_data_length.
  assert (1 <= length (Utf8.encode plaintext))%nat.
  { pose proof (utf8_encode_length_ge plaintext).
    destruct plaintext; [done|cbn [length] in *; lia]. }
  replace (32 + (16 + (16 + length (Utf8.encode plaintext))) + 2)%nat
    with (64 + length (Utf8.encode plaintext) + 2)%nat by lia.
  split; [done|]. split; lia.
Qed.

End cipher_extras.

Lemma cipher_rejects_bad_key_witness :
  Encryption.encrypt (C:=toy_crypto) (lit "secret")
    (KeyString (lit "too short")) counting_rng
  = (Throw (Master_key_not_32_bytes 9), counting_rng).
Proof.
  refine (proj1 (cipher_rejects_bad_key (C:=toy_crypto) (lit "secret")
                   (KeyString (lit "too short")) counting_rng _ _));
    [vm_compute; lia|done].
Defined.

Lemma encrypt_blob_characters_witness :
  ∃ blob, (Encryption.encrypt (C:=toy_crypto) sample_apiKey sample_key
             counting_rng).1 = Ok blob
    ∧ length blob
      = (4 * ((64 + length (Utf8.encode sample_apiKey) + 2) / 3))%nat
    ∧ (88 <= length blob)%nat ∧ (length blob mod 4 = 0)%nat.
Proof.
  apply (encrypt_blob_characters (C:=toy_crypto) (L:=toy_laws));
    [done|reflexivity].
Defined.

(** ** [generateMasterKey] *)

Section generated_key.
Import Encryption.
Context {C : Crypto}.

Lemma base64_encode_ascii (b : bytes) :
  Forall (λ c, c < 128) (Base64.encode b).
Proof.
  assert (Halpha : Forall (λ c, c < 128) Base64.alphabet).
  { apply Forall_forall. intros c Hc.
    assert (Hall : forallb (λ c, c <? 128) Base64.alphabet = true)
      by (vm_compute; reflexivity).
    rewrite forallb_forall in Hall. apply N.ltb_lt, Hall.
    by apply list_elem_of_In. }
  rewrite Forall_forall in Halpha.
  eapply Forall_impl; [apply encode_alphabet|].
  intros c [Hc| ->]; [by apply Halpha|done].
Qed.

(** X4: [generateMasterKey] returns 44 characters of base64 that decode
    to the 32 bytes it has read from the random source.  The [BYOK]
    constructor accepts this text and keeps exactly these 32 bytes;
    [Encryption.encrypt] and [Encryption.decrypt], which read a text key
    as UTF-8 only, refuse the same text as a key of 44 bytes. *)
Theorem generateMasterKey_use (g : Rng) :
  let key := (generateMasterKey g).1 in
  let drawn := map (tape g) (seq (pos g) 32) in
  length key = 44%nat
  ∧ Base64.decode key = drawn
  ∧ pos (generateMasterKey g).2 = (pos g + 32)%nat
  ∧ BYOK.constructor (Some (KeyString key)) = Ok {| BYOK.masterKey := drawn |}
  ∧ (∀ input g0, input ≠ [] →
       encrypt input (KeyString key) g0
       = (Throw (Master_key_not_32_bytes 44), g0)
       ∧ decrypt input (KeyString key) g0
         = (Throw (Master_key_not_32_bytes 44), g0)).
Proof.
  intros key drawn.
  assert (Hdrawn : length drawn = 32%nat)
    by (unfold drawn; by rewrite length_map, length_seq).
  assert (Hkey : key = Base64.encode drawn) by done.
  assert (Hlen : length key = 44%nat)
    by (by rewrite Hkey, base64_encode_length, Hdrawn).
  assert (Hdec : Base64.decode key = drawn)
    by (by rewrite Hkey, sextets_encode_decode).
  assert (Hutf8 : length (keyBuffer (KeyString key)) = 44%nat).
  { cbn [keyBuffer]. rewrite Hkey, utf8_encode_ascii, length_map.
    - by rewrite <- Hkey.
    - apply base64_encode_ascii. }
  split; [done|]. split; [done|]. split; [done|]. split.
  - rewrite constructor_accepts.
    + by rewrite normalize_text_base64, Hdec by (by rewrite Hdec).
    + by rewrite normalize_text_base64, Hdec by (by rewrite Hdec).
  - intros input g0 Hne. unfold encrypt, decrypt.
    rewrite !falsy_false, validateMasterKey_throw by (done || lia).
    by rewrite Hutf8.
Qed.

End generated_key.

(** ** The orchestrator: validity of an instance, order of the checks *)

Section orchestrator_extras.
Import BYOK.

Lemma constructor_inv (config_masterKey : option MasterKey) (self : BYOK.t) :
  constructor config_masterKey = Ok self →
  ∃ key, config_masterKey = Some key
    ∧ masterKey self = normalizeMasterKey key
    ∧ length (masterKey self) = 32%nat.
Proof.
  unfold constructor. destruct config_masterKey as [key|]; [|done].
  destruct (missing (Some key)); [done|].
  destruct (length (normalizeMasterKey key) =? 32)%nat eqn:E; [|done].
  cbn [negb]. intros E'. exists key. split; [done|].
  assert (self = {| masterKey := normalizeMasterKey key |}) as -> by congruence.
  split; [done|by apply Nat.eqb_eq].
Qed.

(** The two outcomes of [registerKey] on a valid instance. *)
Lemma registerKey_cases {C : Crypto} {S} {K : KeyStore S} (self : BYOK.t)
    (input : RegisterKeyInput.t) (w : World S) :
  length (masterKey self) = 32%nat →
  (∃ e, registerKey self input w = (Throw e, w) ∧ validation_error e = true)
  ∨ registerKey self input w
    = (Ok tt, registered self (str (RegisterKeyInput.userId input))
                (str (RegisterKeyInput.apiKey input)) w).
Proof.
  intros Hk. unfold registerKey, bind, lift, throw.
  rewrite ensureValid_ok by done.
  destruct (falsy (str (RegisterKeyInput.userId input))) eqn:Hu;
    [left; by eexists|].
  destruct (falsy (str (RegisterKeyInput.provider input))) eqn:Hp;
    [left; by eexists|].
  destruct (falsy (str (RegisterKeyInput.apiKey input))) eqn:Ha;
    [left; by eexists|].
  destruct (bool_decide _) eqn:Hg; cbn [negb]; [|left; by eexists].
  destruct (Regex.test_anchored _ _) eqn:Ht; cbn [negb]; [|left; by eexists].
  right. unfold encryption_encrypt, bind, called, new_Date, with_store.
  cbn [noted rng]. rewrite encrypt_eq;
    [|by destruct (str (RegisterKeyInput.apiKey input))|done].
  unfold registered, registered_record, blob_of.
  cbn [fst snd]. unfold set_store, set_rng, noted.
  cbn [rng store clock calls]. by rewrite <- app_assoc.
Qed.

(** X5: an instance that the constructor has returned holds the
    normalized key of 32 bytes, and none of its operations ever throws
    "BYOK is not properly configured": [hasKey] and [deleteKey] answer,
    [use] returns a handle, and [registerKey] either succeeds or throws a
    validation error. *)
Theorem constructed_instance_valid (config_masterKey : option MasterKey)
    (self : BYOK.t) :
  constructor config_masterKey = Ok self →
  ensureValid self = Ok tt
  ∧ (∃ key, config_masterKey = Some key
       ∧ masterKey self = normalizeMasterKey key
       ∧ length (masterKey self) = 32%nat)
  ∧ (∀ S (K : KeyStore S) u p (w : World S),
       (∃ b, (hasKey self u p w).1 = Ok b)
       ∧ (∃ b, (deleteKey self u p w).1 = Ok b))
  ∧ (∀ (C : Crypto) (G : GoogleGenerativeAI) S (K : KeyStore S) u,
       ∃ h : handle (S:=S), use self u = Ok h)
  ∧ (∀ (C : Crypto) S (K : KeyStore S) input (w : World S),
       (registerKey self input w).1 = Ok tt
       ∨ ∃ e, registerKey self input w = (Throw e, w)
           ∧ validation_error e = true).
Proof.
  intros Hc. destruct (constructor_inv _ _ Hc) as (key & -> & Hnorm & Hlen).
  split; [by apply ensureValid_ok|]. split; [by exists key|].
  split; [|split].
  - intros S K u p w. unfold hasKey, deleteKey, bind, lift, called, with_store.
    rewrite ensureValid_ok by done. split; by eexists.
  - intros C G S K u. unfold use. rewrite ensureValid_ok by done. by eexists.
  - intros C S K input w.
    destruct (registerKey_cases self input w Hlen) as [He| ->];
      [by right|by left].
Qed.

(** X6: on a valid instance [registerKey] reports the first check that
    fails, in the order userId, provider, apiKey, supported provider: a
    missing field is reported before an unsupported provider, and an
    unsupported provider before the format of the key is looked at.
    Nothing is encrypted or stored in any of these cases. *)
Theorem registerKey_first_error {C : Crypto} {S} {K : KeyStore S}
    (self : BYOK.t) (input : RegisterKeyInput.t) (w : World S) :
  length (masterKey self) = 32%nat →
  let user := str (RegisterKeyInput.userId input) in
  let prov := str (RegisterKeyInput.provider input) in
  let key := str (RegisterKeyInput.apiKey input) in
  (user = [] → registerKey self input w = (Throw UserId_is_required, w))
  ∧ (user ≠ [] → prov = [] →
     registerKey self input w = (Throw Provider_is_required, w))
  ∧ (user ≠ [] → prov ≠ [] → key = [] →
     registerKey self input w = (Throw ApiKey_is_required, w))
  ∧ (user ≠ [] → prov ≠ [] → key ≠ [] → prov ≠ lit "gemini" →
     registerKey self input w = (Throw Only_gemini_is_supported, w)).
Proof.
  intros Hk user prov key. unfold registerKey, bind, lift, throw.
  rewrite ensureValid_ok by done. subst user prov key.
  repeat split.
  - by intros ->.
  - intros Hu Hp. by rewrite (falsy_false _ Hu), Hp.
  - intros Hu Hp Ha. by rewrite (falsy_false _ Hu), (falsy_false _ Hp), Ha.
  - intros Hu Hp Ha Hg.
    rewrite (falsy_false _ Hu), (falsy_false _ Hp), (falsy_false _ Ha).
    by rewrite bool_decide_eq_false_2.
Qed.

End orchestrator_extras.

Lemma constructed_instance_valid_witness :
  BYOK.ensureValid sample_self = Ok tt.
Proof.
  refine (proj1 (constructed_instance_valid
                   (Some (KeyBuffer (replicate 32 Byte.x6b))) sample_self _)).
  reflexivity.
Defined.

Lemma registerKey_first_error_witness :
  BYOK.registerKey (C:=toy_crypto) sample_self
    {| RegisterKeyInput.userId := Some (lit "u1");
       RegisterKeyInput.provider := Some (lit "openai");
       RegisterKeyInput.apiKey := Some (lit "bad") |} sample_world
  = (Throw Only_gemini_is_supported, sample_world).
Proof.
  destruct (registerKey_first_error (C:=toy_crypto) sample_self
              {| RegisterKeyInput.userId := Some (lit "u1");
                 RegisterKeyInput.provider := Some (lit "openai");
                 RegisterKeyInput.apiKey := Some (lit "bad") |} sample_world)
    as (_ & _ & _ & Hprov); [reflexivity|].
  by apply Hprov.
Defined.

(** ** The in-memory store and the pass-through operations *)

Section store_extras.
Import BYOK.

Lemma indexed_get (store : MemoryStore.t) (u : jsstring) (p : ProviderId)
    (r : KeyRecord) :
  indexed store → MemoryStore.get u p store = Some r →
  userId r = u ∧ provider r = p.
Proof.
  intros Hix Hget. apply Hix in Hget. by apply key_inj in Hget as [-> ->].
Qed.

(** X7: in a store built by [set] and [delete], [get] for a user and
    provider returns only a record of that user and provider, and the
    records of that identity are exactly the one [get] returns, or none. *)
Theorem get_returns_own_record (store : MemoryStore.t) (u : jsstring)
    (p : ProviderId) :
  built store →
  (∀ r, MemoryStore.get u p store = Some r → userId r = u ∧ provider r = p)
  ∧ records_of u p store
    = match MemoryStore.get u p store with
      | Some r => {[MemoryStore.key u p := r]}
      | None => ∅
      end
  ∧ (MemoryStore.has u p store = true ↔ records_of u p store ≠ ∅).
Proof.
  intros Hix%built_indexed.
  assert (Hrec : records_of u p store
    = match MemoryStore.get u p store with
      | Some r => {[MemoryStore.key u p := r]}
      | None => ∅
      end).
  { apply map_eq. intros k. apply option_eq. intros r'.
    unfold records_of. rewrite map_lookup_filter_Some. cbn [snd].
    destruct (MemoryStore.get u p store) as [r|] eqn:Hget.
    - rewrite lookup_singleton_Some. split.
      + intros [Hk [Hu Hp]]. pose proof (Hix _ _ Hk) as Hkey.
        rewrite Hu, Hp in Hkey. subst k. split; [done|].
        unfold MemoryStore.get in Hget. congruence.
      + intros [<- <-]. split; [done|]. by apply (indexed_get store).
    - rewrite lookup_empty. split; [|done].
      intros [Hk [Hu Hp]]. pose proof (Hix _ _ Hk) as Hkey.
      rewrite Hu, Hp in Hkey. subst k.
      unfold MemoryStore.get in Hget. congruence. }
  split; [intros r; by apply (indexed_get store)|]. split; [done|].
  rewrite Hrec, has_get. destruct (MemoryStore.get u p store) as [r|].
  - split; [|done]. intros _ E.
    apply (f_equal (λ m : MemoryStore.t, m !! MemoryStore.key u p)) in E.
    by rewrite lookup_singleton_eq, lookup_empty in E.
  - split; [done|]. by intros [].
Qed.

Lemma set_rng_same {S} (w : World S) : set_rng (rng w) w = w.
Proof. by destruct w. Qed.

(** X8: with the in-memory store, [deleteKey] returns what [hasKey]
    returned just before; afterwards [hasKey] for that identity is false
    and a second [deleteKey] returns false; the records of every other
    identity, the random source and the clock are untouched, and when
    there was no record the store is unchanged. *)
Theorem deleteKey_semantics (self : BYOK.t) (u : jsstring) (p : ProviderId)
    (w : World MemoryStore.t) :
  length (masterKey self) = 32%nat →
  let deleted := deleteKey self u p w in
  deleted.1 = (hasKey self u p w).1
  ∧ (hasKey self u p deleted.2).1 = Ok false
  ∧ (deleteKey self u p deleted.2).1 = Ok false
  ∧ (∀ u' p', (u', p') ≠ (u, p) →
       MemoryStore.get u' p' (store deleted.2)
       = MemoryStore.get u' p' (store w))
  ∧ ((hasKey self u p w).1 = Ok false → store deleted.2 = store w)
  ∧ rng deleted.2 = rng w ∧ clock deleted.2 = clock w
  ∧ calls deleted.2 = calls w ++ [Call_store_delete].
Proof.
  intros Hk deleted. unfold deleted.
  rewrite !deleteKey_eq, !hasKey_eq by done. cbn [fst snd].
  assert (Hgone : MemoryStore.get u p
            (store (set_store (MemoryStore.delete u p (store w)).2
                      (noted Call_store_delete w))) = None)
    by apply get_delete_same.
  repeat split.
  - by rewrite has_get, Hgone.
  - unfold MemoryStore.delete at 1. cbn [fst].
    fold (MemoryStore.get u p
            (store (set_store (MemoryStore.delete u p (store w)).2
                      (noted Call_store_delete w)))).
    by rewrite Hgone.
  - intros u' p' Hne. unfold MemoryStore.get, MemoryStore.delete.
    cbn [store set_store snd]. apply lookup_delete_ne.
    intros [<- <-]%key_inj. done.
  - intros [= Hhas]. cbn [store set_store MemoryStore.delete snd].
    apply delete_id. rewrite has_get in Hhas.
    apply bool_decide_eq_false in Hhas. unfold MemoryStore.get in Hhas.
    destruct (store w !! MemoryStore.key u p) eqn:E; [|done].
    exfalso. apply Hhas. by eexists.
Qed.

(** X9: registering a key for an identity that had no record and then
    deleting it gives back the store as it was; in between [hasKey] is
    true, and [deleteKey] reports that it removed a record. *)
Theorem register_then_delete {C : Crypto} (self : BYOK.t)
    (user apiKey : jsstring) (w : World MemoryStore.t) :
  length (masterKey self) = 32%nat → user ≠ [] →
  gemini_key_shape apiKey = true →
  MemoryStore.get user gemini (store w) = None →
  let w1 := (registerKey self (register_input user (lit "gemini") apiKey) w).2 in
  let deleted := deleteKey self user gemini w1 in
  (hasKey self user gemini w1).1 = Ok true
  ∧ deleted.1 = Ok true
  ∧ store deleted.2 = store w
  ∧ (hasKey self user gemini deleted.2).1 = Ok false.
Proof.
  intros Hk Hu Ha Hget w1 deleted. unfold deleted, w1.
  rewrite registerKey_accepted by done. cbn [snd].
  rewrite deleteKey_eq, !hasKey_eq by done. cbn [fst snd].
  assert (Hhas : MemoryStore.has user gemini
                   (store (registered self user apiKey w)) = true).
  { rewrite has_get, registered_store.
    by rewrite (get_set_same _ (registered_record self user apiKey w)). }
  assert (Hstore : (MemoryStore.delete user gemini
                      (store (registered self user apiKey w))).2 = store w).
  { rewrite registered_store. unfold MemoryStore.delete, MemoryStore.set.
    cbn [snd userId provider registered_record].
    by apply delete_insert_id. }
  split; [by rewrite Hhas|]. split; [exact (f_equal Ok Hhas)|].
  split; [done|].
  cbn [store set_store]. by rewrite Hstore, has_get, Hget.
Qed.

End store_extras.

Lemma get_returns_own_record_witness :
  MemoryStore.has (lit "u1") gemini
    (MemoryStore.set
       {| userId := lit "u2"; provider := gemini;
          encryptedKey := lit "AAAA"; createdAt := 0 |} ∅) = true
  ↔ records_of (lit "u1") gemini
      (MemoryStore.set
         {| userId := lit "u2"; provider := gemini;
            encryptedKey := lit "AAAA"; createdAt := 0 |} ∅) ≠ ∅.
Proof.
  refine (proj2 (proj2 (get_returns_own_record _ (lit "u1") gemini _))).
  apply built_set, built_new.
Defined.

Lemma deleteKey_semantics_witness :
  (BYOK.deleteKey sample_self (lit "u1") gemini sample_world).1
  = (BYOK.hasKey sample_self (lit "u1") gemini sample_world).1.
Proof.
  refine (proj1 (deleteKey_semantics sample_self (lit "u1") gemini
                   sample_world _)).
  reflexivity.
Defined.

Lemma register_then_delete_witness :
  (BYOK.hasKey sample_self (lit "u1") gemini
     (BYOK.registerKey (C:=toy_crypto) sample_self
        (register_input (lit "u1") (lit "gemini") sample_apiKey)
        sample_world).2).1 = Ok true.
Proof.
  refine (proj1 (register_then_delete (C:=toy_crypto) sample_self (lit "u1")
                   sample_apiKey sample_world _ _ _ _));
    [reflexivity|done|reflexivity|reflexivity].
Defined.

(** ** [use(userId).chat] with a stored record *)

Section chat_extras.
Import BYOK.
Context {C : Crypto} {G : GoogleGenerativeAI}.

(** The worlds that [chat] passes through. *)
Lemma chat_record_eq (self : BYOK.t) (u : jsstring) (h : handle)
    (input : ChatInput.t) (w : World MemoryStore.t) (r : KeyRecord) :
  use self u = Ok h →
  str (ChatInput.provider input) = []
  ∨ str (ChatInput.provider input) = lit "gemini" →
  MemoryStore.get u gemini (store w) = Some r →
  chat h input w
  = match (Encryption.decrypt (encryptedKey r) (KeyBuffer (masterKey self))
             (rng w)).1 with
    | Throw e => (Throw e, noted Call_decrypt (noted Call_store_get w))
    | Ok apiKey =>
        (GeminiProvider.chat (GeminiProvider.new apiKey)
           {| prompt := ChatInput.prompt input;
              model := ChatInput.model input |},
         noted Call_provider (noted Call_decrypt (noted Call_store_get w)))
    end.
Proof.
  intros Huse Hp Hget. rewrite (use_chat _ _ _ Huse). unfold handle_chat.
  assert ((if falsy (str (ChatInput.provider input)) then lit "gemini"
           else str (ChatInput.provider input)) = lit "gemini") as ->.
  { by destruct Hp as [-> | ->]. }
  rewrite bool_decide_eq_true_2 by done. cbn [negb].
  unfold bind at 1. unfold called at 1. unfold bind at 1.
  unfold with_store at 1.
  cbn [store_get MemoryStore.keyStore fst snd]. rewrite set_store_same.
  change (store (noted Call_store_get w)) with (store w). rewrite Hget.
  unfold encryption_decrypt, called, lift, bind. cbn [fst snd].
  change (rng (noted Call_decrypt (noted Call_store_get w))) with (rng w).
  pose proof (decrypt_rng (encryptedKey r) (KeyBuffer (masterKey self)) (rng w))
    as Hrng.
  destruct (Encryption.decrypt _ _ _) as [[apiKey|e] g']; cbn [fst snd] in *;
    subst g';
    change (rng w) with (rng (noted Call_decrypt (noted Call_store_get w)));
    by rewrite set_rng_same.
Qed.

(** X10: [chat] only reads: whatever the input and whatever happens, the
    store, the random source and the clock are as before, and the calls
    made are, in this order, the lookup in the store, the decryption, and
    the construction of the provider adapter, stopping at the first that
    fails. *)
Theorem chat_only_reads (self : BYOK.t) (u : jsstring) (h : handle)
    (input : ChatInput.t) (w : World MemoryStore.t) :
  use self u = Ok h →
  let w' := (chat h input w).2 in
  store w' = store w ∧ rng w' = rng w ∧ clock w' = clock w
  ∧ (calls w' = calls w
     ∨ calls w' = calls w ++ [Call_store_get]
     ∨ calls w' = calls w ++ [Call_store_get; Call_decrypt]
     ∨ calls w' = calls w ++ [Call_store_get; Call_decrypt; Call_provider]).
Proof.
  intros Huse w'. unfold w'.
  destruct (decide (str (ChatInput.provider input) = []
                    ∨ str (ChatInput.provider input) = lit "gemini"))
    as [Hp|Hp].
  - destruct (MemoryStore.get u gemini (store w)) as [r|] eqn:Hget.
    + rewrite (chat_record_eq self u h input w r) by done.
      destruct (Encryption.decrypt _ _ _).1; cbn [snd noted store rng clock calls];
        rewrite <- ?app_assoc; auto 10.
    + rewrite (chat_no_record self u h input w) by done.
      cbn [snd noted store rng clock calls]. auto 10.
  - rewrite (chat_other_provider self u h input w); [cbn [snd]; auto|done|..];
      intros E; apply Hp; auto.
Qed.

(** X11: when the stored blob cannot be decrypted, [chat] throws the
    error of [decrypt] and the provider adapter is never built; an empty
    blob gives "Ciphertext must be a non-empty string", a blob of fewer
    than 64 bytes "Decryption failed: Invalid ciphertext format: too
    short". *)
Theorem chat_undecryptable_record (self : BYOK.t) (u : jsstring) (h : handle)
    (input : ChatInput.t) (w : World MemoryStore.t) (r : KeyRecord) :
  use self u = Ok h →
  str (ChatInput.provider input) = []
  ∨ str (ChatInput.provider input) = lit "gemini" →
  MemoryStore.get u gemini (store w) = Some r →
  let failed := noted Call_decrypt (noted Call_store_get w) in
  (∀ e, (Encryption.decrypt (encryptedKey r) (KeyBuffer (masterKey self))
           (rng w)).1 = Throw e →
        chat h input w = (Throw e, failed))
  ∧ (encryptedKey r = [] →
     chat h input w = (Throw Ciphertext_not_a_non_empty_string, failed))
  ∧ (encryptedKey r ≠ [] →
     (length (Base64.decode (encryptedKey r)) < 64)%nat →
     chat h input w
     = (Throw (Decryption_failed Invalid_ciphertext_too_short), failed)).
Proof.
  intros Huse Hp Hget failed. pose proof (use_valid _ _ _ Huse) as Hk.
  rewrite (chat_record_eq self u h input w r) by done.
  split; [|split].
  - by intros e ->.
  - by intros ->.
  - intros Hne Hlen. by rewrite decrypt_short_blob.
Qed.

End chat_extras.

(** ** From registration to the provider *)

Section handover.
Import BYOK.
Context {C : Crypto} {L : CryptoLaws} {G : GoogleGenerativeAI}.

Lemma key_char_ascii (c : N) : key_char c = true → c < 128.
Proof.
  unfold key_char.
  rewrite !orb_true_iff, !andb_true_iff, !N.leb_le, !N.eqb_eq. lia.
Qed.

Lemma gemini_key_shape_ascii (apiKey : jsstring) :
  gemini_key_shape apiKey = true → Forall (λ u, u < 128) apiKey.
Proof.
  destruct apiKey as [|a [|i rest]]; [done..|]. cbn [gemini_key_shape].
  intros [[[->%N.eqb_eq ->%N.eqb_eq]%andb_true_iff _]%andb_true_iff
            Hall]%andb_true_iff.
  repeat (constructor; [done|]).
  apply Forall_forall. intros c Hc. apply key_char_ascii.
  rewrite forallb_forall in Hall. by apply Hall, list_elem_of_In.
Qed.

Lemma ascii_well_formed (s : jsstring) :
  Forall (λ u, u < 128) s → Utf8.well_formed s = true.
Proof.
  induction 1 as [|u s Hu _ IH]; [done|]. cbn [Utf8.well_formed].
  unfold Utf8.is_high, Utf8.is_low.
  rewrite (proj2 (N.leb_gt 0xD800 u)), (proj2 (N.leb_gt 0xDC00 u)),
    (proj2 (N.ltb_lt u 0x10000)) by lia.
  by cbn [andb].
Qed.

Lemma decrypt_blob_of (plaintext : jsstring) (masterKey : MasterKey)
    (g g' : Rng) :
  plaintext ≠ [] → Utf8.well_formed plaintext = true →
  length (Encryption.keyBuffer masterKey) = 32%nat →
  (Encryption.decrypt (blob_of plaintext masterKey g) masterKey g').1
  = Ok plaintext.
Proof.
  intros Hp Hwf Hk.
  destruct (decrypt_encrypt_data plaintext masterKey g g' Hp Hk)
    as (blob & Henc & Hdec).
  rewrite encrypt_eq in Henc by done. cbn [fst] in Henc.
  assert (blob = blob_of plaintext masterKey g) as -> by (unfold blob_of; congruence).
  by rewrite Hdec, utf8_decode_encode.
Qed.

(** X12: when the record of the user holds the blob of a registered key,
    [chat] hands the provider adapter exactly that key: the answer is the
    answer of [GeminiProvider.chat] for this key, prompt and model.  An
    empty prompt is refused by the adapter, hence only after the key has
    been decrypted; otherwise the SDK is called with the model
    "gemini-1.5-flash" unless one is given, its error is passed on, and a
    missing text becomes the empty string. *)
Theorem chat_hands_over_key (self : BYOK.t) (u apiKey : jsstring) (h : handle)
    (input : ChatInput.t) (w : World MemoryStore.t) (r : KeyRecord) (g0 : Rng) :
  use self u = Ok h → gemini_key_shape apiKey = true →
  str (ChatInput.provider input) = []
  ∨ str (ChatInput.provider input) = lit "gemini" →
  MemoryStore.get u gemini (store w) = Some r →
  encryptedKey r = blob_of apiKey (KeyBuffer (masterKey self)) g0 →
  let after := noted Call_provider (noted Call_decrypt (noted Call_store_get w)) in
  let modelId :=
    if falsy (str (ChatInput.model input)) then lit "gemini-1.5-flash"
    else str (ChatInput.model input) in
  chat h input w
  = (GeminiProvider.chat (GeminiProvider.new apiKey)
       {| prompt := ChatInput.prompt input; model := ChatInput.model input |},
     after)
  ∧ (str (ChatInput.prompt input) = [] →
     chat h input w = (Throw Prompt_is_required, after))
  ∧ (str (ChatInput.prompt input) ≠ [] →
     chat h input w
     = (match generateContent apiKey modelId (str (ChatInput.prompt input)) with
        | Throw e => Throw e
        | Ok text => Ok {| text := str text |}
        end, after)).
Proof.
  intros Huse Ha Hp Hget Hblob after modelId.
  pose proof (use_valid _ _ _ Huse) as Hk.
  assert (Hchat : chat h input w
    = (GeminiProvider.chat (GeminiProvider.new apiKey)
         {| prompt := ChatInput.prompt input; model := ChatInput.model input |},
       after)).
  { rewrite (chat_record_eq self u h input w r) by done.
    rewrite Hblob, decrypt_blob_of; [done|by apply gemini_key_shape_nonempty
      |by apply ascii_well_formed, gemini_key_shape_ascii|done]. }
  split; [done|]. rewrite Hchat. unfold GeminiProvider.chat.
  cbn [prompt model GeminiProvider.client GeminiProvider.new].
  split.
  - by intros ->.
  - intros Hne. by rewrite (falsy_false _ Hne).
Qed.

End handover.

Lemma chat_hands_over_key_witness :
  BYOK.handle_chat (C:=toy_crypto) (G:=echo_gemini) sample_self (lit "u1")
    {| ChatInput.prompt := Some (lit "hi"); ChatInput.model := None;
       ChatInput.provider := None |}
    (registered (C:=toy_crypto) sample_self (lit "u1") sample_apiKey
       sample_world)
  = (GeminiProvider.chat (G:=echo_gemini) (GeminiProvider.new sample_apiKey)
       {| prompt := Some (lit "hi"); model := None |},
     noted Call_provider (noted Call_decrypt (noted Call_store_get
       (registered (C:=toy_crypto) sample_self (lit "u1") sample_apiKey
          sample_world)))).
Proof.
  refine (proj1 (chat_hands_over_key (C:=toy_crypto) (L:=toy_laws)
            (G:=echo_gemini) sample_self (lit "u1") sample_apiKey
            {| BYOK.chat := BYOK.handle_chat (C:=toy_crypto) (G:=echo_gemini)
                              sample_self (lit "u1") |}
            {| ChatInput.prompt := Some (lit "hi"); ChatInput.model := None;
               ChatInput.provider := None |}
            (registered (C:=toy_crypto) sample_self (lit "u1") sample_apiKey
               sample_world)
            (registered_record (C:=toy_crypto) sample_self (lit "u1")
               sample_apiKey sample_world)
            (rng sample_world) _ _ _ _ _));
    [reflexivity|reflexivity|by left|reflexivity|reflexivity].
Defined.

Lemma chat_only_reads_witness :
  store (BYOK.handle_chat (C:=toy_crypto) (G:=echo_gemini) sample_self
           (lit "u1")
           {| ChatInput.prompt := Some (lit "hi"); ChatInput.model := None;
              ChatInput.provider := None |} sample_world).2
  = store sample_world.
Proof.
  refine (proj1 (chat_only_reads (C:=toy_crypto) (G:=echo_gemini) sample_self
            (lit "u1")
            {| BYOK.chat := BYOK.handle_chat (C:=toy_crypto) (G:=echo_gemini)
                              sample_self (lit "u1") |}
            {| ChatInput.prompt := Some (lit "hi"); ChatInput.model := None;
               ChatInput.provider := None |} sample_world _)).
  reflexivity.
Defined.

Lemma chat_undecryptable_record_witness :
  BYOK.handle_chat (C:=toy_crypto) (G:=echo_gemini) sample_self (lit "u1")
    {| ChatInput.prompt := Some (lit "hi"); ChatInput.model := None;
       ChatInput.provider := None |}
    (set_store (MemoryStore.set
                  {| userId := lit "u1"; provider := gemini;
                     encryptedKey := lit "AAAA"; createdAt := 0 |} ∅)
       sample_world)
  = (Throw (Decryption_failed Invalid_ciphertext_too_short),
     noted Call_decrypt (noted Call_store_get
       (set_store (MemoryStore.set
                     {| userId := lit "u1"; provider := gemini;
                        encryptedKey := lit "AAAA"; createdAt := 0 |} ∅)
          sample_world))).
Proof.
  destruct (chat_undecryptable_record (C:=toy_crypto) (G:=echo_gemini)
              sample_self (lit "u1")
              {| BYOK.chat := BYOK.handle_chat (C:=toy_crypto) (G:=echo_gemini)
                                sample_self (lit "u1") |}
              {| ChatInput.prompt := Some (lit "hi"); ChatInput.model := None;
                 ChatInput.provider := None |}
              (set_store (MemoryStore.set
                            {| userId := lit "u1"; provider := gemini;
                               encryptedKey := lit "AAAA"; createdAt := 0 |} ∅)
                 sample_world)
              {| userId := lit "u1"; provider := gemini;
                 encryptedKey := lit "AAAA"; createdAt := 0 |})
    as (_ & _ & Hshort); [reflexivity|by left|reflexivity|].
  apply Hshort; [done|vm_compute; lia].
Defined.

(** ** The earlier constructor *)

Section earlier_version.
Import BYOK.

Lemma generated_key_utf8_length (g : Rng) :
  length (Utf8.encode (Encryption.generateMasterKey g).1) = 44%nat.
Proof.
  unfold Encryption.generateMasterKey. cbn [fst].
  rewrite utf8_encode_ascii, length_map, base64_encode_length
    by apply base64_encode_ascii.
  by rewrite randomBytes_length.
Qed.

(** X13: the constructor of the current class accepts every master key
    that the constructor of the earlier class accepted, and keeps the same
    bytes; an instance of the earlier class is valid and returns the store
    it was given.  The converse fails: the earlier constructor refuses the
    text that [generateMasterKey] returns, as a key of 44 bytes. *)
Theorem earlier_constructor_compatible {S : Type}
    (config_masterKey : option MasterKey) (config_store : option S)
    (old : BYOK0.t (S:=S)) :
  BYOK0.constructor config_masterKey config_store = Ok old →
  constructor config_masterKey
  = Ok {| masterKey := BYOK0.getMasterKey old |}
  ∧ BYOK0.isValid old = true
  ∧ BYOK0.getStore old = config_store
  ∧ (∀ g, BYOK0.constructor (S:=S)
            (Some (KeyString (Encryption.generateMasterKey g).1)) config_store
          = Throw (Config_master_key_not_32_bytes 44)).
Proof.
  unfold BYOK0.constructor. intros Hold.
  assert (Hgen : ∀ g,
    (if missing (Some (KeyString (Encryption.generateMasterKey g).1))
     then Throw MasterKey_is_required
     else if negb (length (Encryption.keyBuffer
                     (KeyString (Encryption.generateMasterKey g).1)) =? 32)%nat
          then Throw (Config_master_key_not_32_bytes
                 (length (Encryption.keyBuffer
                    (KeyString (Encryption.generateMasterKey g).1))))
          else Ok {| BYOK0.masterKey := Encryption.keyBuffer
                       (KeyString (Encryption.generateMasterKey g).1);
                     BYOK0.store := config_store |})
    = Throw (Config_master_key_not_32_bytes 44)).
  { intros g. cbn [Encryption.keyBuffer missing].
    rewrite generated_key_utf8_length, falsy_false; [done|].
    intros E. pose proof (generated_key_utf8_length g) as Hlen.
    by rewrite E in Hlen. }
  destruct config_masterKey as [key|]; [|done].
  destruct (missing (Some key)) eqn:Hmiss; [done|].
  destruct (length (Encryption.keyBuffer key) =? 32)%nat eqn:E; [|done].
  cbn [negb] in Hold. apply Nat.eqb_eq in E.
  assert (old = {| BYOK0.masterKey := Encryption.keyBuffer key;
                   BYOK0.store := config_store |}) as -> by congruence.
  unfold BYOK0.getMasterKey, BYOK0.getStore, BYOK0.isValid.
  cbn [BYOK0.masterKey BYOK0.store].
  assert (Hnorm : normalizeMasterKey key = Encryption.keyBuffer key).
  { destruct key as [b|s]; [done|]. cbn [Encryption.keyBuffer] in *.
    apply normalize_text_utf8, short_text_not_base64_key. lia. }
  split; [|split; [by rewrite E|split; [done|exact Hgen]]].
  rewrite constructor_accepts; rewrite Hnorm; done.
Qed.

End earlier_version.

Lemma earlier_constructor_compatible_witness :
  BYOK.constructor (Some (KeyString (lit "kkkkkkkkkkkkkkkkkkkkkkkkkkkkkkkk")))
  = Ok {| BYOK.masterKey :=
            BYOK0.getMasterKey (S:=MemoryStore.t)
              {| BYOK0.masterKey := replicate 32 Byte.x6b;
                 BYOK0.store := None |} |}.
Proof.
  refine (proj1 (earlier_constructor_compatible (S:=MemoryStore.t)
            (Some (KeyString (lit "kkkkkkkkkkkkkkkkkkkkkkkkkkkkkkkk"))) None
            {| BYOK0.masterKey := replicate 32 Byte.x6b; BYOK0.store := None |}
            _)).
  reflexivity.
Defined.

(** ** The registration endpoint of the demo server *)

Section demo_server.
Import BYOK.
Context {C : Crypto} {S : Type} {K : KeyStore S}.

Lemma registerKey_gemini_eq (self : BYOK.t) (user apiKey : option jsstring)
    (w : World S) :
  length (masterKey self) = 32%nat →
  registerKey self
    {| RegisterKeyInput.userId := user;
       RegisterKeyInput.provider := Some (lit "gemini");
       RegisterKeyInput.apiKey := apiKey |} w
  = if falsy (str user) then (Throw UserId_is_required, w)
    else if falsy (str apiKey) then (Throw ApiKey_is_required, w)
    else if gemini_key_shape (str apiKey)
         then (Ok tt, registered self (str user) (str apiKey) w)
         else (Throw Gemini_key_appears_invalid, w).
Proof.
  intros Hk. unfold registerKey, bind, lift, throw.
  cbn [RegisterKeyInput.userId RegisterKeyInput.provider
       RegisterKeyInput.apiKey].
  rewrite ensureValid_ok by done.
  destruct (falsy (str user)); [done|].
  change (falsy (str (Some (lit "gemini")))) with false. cbn iota.
  destruct (falsy (str apiKey)) eqn:Ha; [done|].
  rewrite bool_decide_eq_true_2 by done. cbn [negb].
  rewrite gemini_key_pattern_shape.
  destruct (gemini_key_shape (str apiKey)); cbn [negb]; [|done].
  unfold encryption_encrypt, bind, called, new_Date, with_store.
  cbn [noted rng]. rewrite encrypt_eq; [|by destruct (str apiKey)|done].
  unfold registered, registered_record, blob_of.
  cbn [fst snd]. unfold set_store, set_rng, noted.
  cbn [rng store clock calls]. by rewrite <- app_assoc.
Qed.

(** X14: [POST /keys/gemini] answers 200 with [ok: true] exactly when the
    body has a non-empty [userId] and an [apiKey] of the Gemini shape, and
    then the key is registered; otherwise it answers 400 with [ok: false]
    and the message of the first failed check, and nothing is encrypted
    or stored. *)
Theorem post_keys_gemini_response (byok : BYOK.t)
    (body_userId body_apiKey : option jsstring) (w : World S) :
  length (masterKey byok) = 32%nat →
  let answer := post_keys_gemini byok body_userId body_apiKey w in
  (str body_userId ≠ [] → gemini_key_shape (str body_apiKey) = true →
   answer = ({| status := 200; ok := true; error_message := None |},
             registered byok (str body_userId) (str body_apiKey) w))
  ∧ (str body_userId = [] →
     answer = ({| status := 400; ok := false;
                  error_message := Some "userId is required" |}, w))
  ∧ (str body_userId ≠ [] → str body_apiKey = [] →
     answer = ({| status := 400; ok := false;
                  error_message := Some "apiKey is required" |}, w))
  ∧ (str body_userId ≠ [] → str body_apiKey ≠ [] →
     gemini_key_shape (str body_apiKey) = false →
     answer = ({| status := 400; ok := false;
                  error_message := Some "Gemini API key appears invalid" |}, w))
  ∧ (status answer.1 = 200 ↔
     str body_userId ≠ [] ∧ gemini_key_shape (str body_apiKey) = true).
Proof.
  intros Hk answer. unfold answer, post_keys_gemini.
  rewrite registerKey_gemini_eq by done.
  destruct (str body_userId) as [|c u] eqn:Hu; cbn [falsy].
  { repeat split; try done. by intros [? _]. }
  destruct (str body_apiKey) as [|c' a] eqn:Ha; cbn [falsy].
  { repeat split; try done. by intros [_ ?]. }
  destruct (gemini_key_shape (c' :: a)) eqn:Hs; cbn [fst snd message status];
    repeat split; try done.
  by intros [_ ?].
Qed.

End demo_server.

Lemma post_keys_gemini_response_witness :
  post_keys_gemini (C:=toy_crypto) sample_self (Some (lit "u1"))
    (Some (lit "bad")) sample_world
  = ({| status := 400; ok := false;
        error_message := Some "Gemini API key appears invalid" |},
     sample_world).
Proof.
  destruct (post_keys_gemini_response (C:=toy_crypto) sample_self
              (Some (lit "u1")) (Some (lit "bad")) sample_world)
    as (_ & _ & _ & Hbad & _); [reflexivity|].
  by apply Hbad.
Defined.
